(** * Configuration parser of [lab.configs.parser]

    A shallow embedding of [src/lab/configs/parser.py]: the collector of
    base classes ([_get_base_classes]) and the [Parser] that merges the
    annotations, values and calculators of a class hierarchy and then
    fills in the missing values.

    Python dictionaries keep their keys in insertion order, and the parser
    relies on it twice: [next(iter(self.options[k].keys()))] picks the
    first-inserted option, and [for k in self.types] visits the names in the
    order of their first declaration.  They are therefore embedded as
    association lists with the update discipline of a Python [dict].

    The development also covers the checkpoint saver of
    [src/labml/internal/experiment/__init__.py] and the search for the
    caller's file of [src/lab/experiment/__init__.py]. *)

From Stdlib Require Import List String Bool Arith ZArith Lia.
From Equations Require Import Equations.
Import ListNotations.
Open Scope string_scope.
Open Scope list_scope.

(** ** Insertion-ordered dictionaries *)

Module Dict.

Definition odict (A : Type) : Type := list (string * A).

Definition empty {A} : odict A := [].

(** [d[k]] / [d.get(k)] *)
Fixpoint get {A} (k : string) (d : odict A) : option A :=
  match d with
  | [] => None
  | (k', v) :: d' => if String.eqb k k' then Some v else get k d'
  end.

(** [k in d] *)
Definition mem {A} (k : string) (d : odict A) : bool :=
  match get k d with Some _ => true | None => false end.

(** [d[k] = v]: an existing key keeps its position and gets the new
    value, a new key goes to the end. *)
Fixpoint set {A} (k : string) (v : A) (d : odict A) : odict A :=
  match d with
  | [] => [(k, v)]
  | (k', v') :: d' =>
      if String.eqb k k' then (k', v) :: d' else (k', v') :: set k v d'
  end.

(** [d.keys()] and [d.items()], in iteration order. *)
Definition keys {A} (d : odict A) : list string := map fst d.
Definition items {A} (d : odict A) : list (string * A) := d.

(** [next(iter(d.keys()))]; [None] stands for [StopIteration]. *)
Definition first_key {A} (d : odict A) : option string :=
  match d with
  | [] => None
  | (k, _) :: _ => Some k
  end.

(** A Python dict holds a key once. *)
Fixpoint ok {A} (d : odict A) : bool :=
  match d with
  | [] => true
  | (k, _) :: d' => negb (mem k d') && ok d'
  end.

End Dict.

Abbreviation odict := Dict.odict.

(** ** Python objects seen by the parser *)

(** The parser stores arbitrary objects as values and as annotations, and
    inspects them in three ways only: [v is not None], [type(v)] and
    [type(t) == type].  A class object carries its name and the name of its
    metaclass; [PClass "int" "type"] is [int], [PClass "type" "type"] is
    [type] itself. *)
Inductive pyobj : Type :=
| PNone
| PBool (b : bool)
| PInt (z : Z)
| PStr (s : string)
| PClass (name meta : string)
| PGeneric (repr : string)            (* a [typing] construct, e.g. [List[int]] *)
| PInst (cls meta : string) (repr : string).  (* an instance of a user class *)

Definition py_type : pyobj := PClass "type" "type".
Definition py_int : pyobj := PClass "int" "type".
Definition py_str : pyobj := PClass "str" "type".

(** [type(v)] *)
Definition type_of (v : pyobj) : pyobj :=
  match v with
  | PNone => PClass "NoneType" "type"
  | PBool _ => PClass "bool" "type"
  | PInt _ => py_int
  | PStr _ => py_str
  | PClass _ meta => PClass meta "type"
  | PGeneric _ => PClass "_GenericAlias" "type"
  | PInst cls meta _ => PClass cls meta
  end.

Definition pyobj_eqb (a b : pyobj) : bool :=
  match a, b with
  | PNone, PNone => true
  | PBool x, PBool y => Bool.eqb x y
  | PInt x, PInt y => Z.eqb x y
  | PStr x, PStr y => String.eqb x y
  | PClass n m, PClass n' m' => String.eqb n n' && String.eqb m m'
  | PGeneric r, PGeneric r' => String.eqb r r'
  | PInst c m r, PInst c' m' r' =>
      String.eqb c c' && String.eqb m m' && String.eqb r r'
  | _, _ => false
  end.

(** [v is not None] *)
Definition is_not_none (v : pyobj) : bool :=
  match v with PNone => false | _ => true end.

(** [type(t) == type] *)
Definition is_plain_class (t : pyobj) : bool := pyobj_eqb (type_of t) py_type.

(** Modelled from the spec: [ConfigFunction] is imported from
    [lab/configs/config_function.py], whose text is not available.  The
    spec's Calculator carries the target attribute name(s), an option name,
    an append flag and a body; the parser reads [is_append] and
    [option_name], and builds one with the keyword arguments of lines
    124-127. *)
Record ConfigFunction : Type := mkConfigFunction {
  func : pyobj;
  config_names : list string;
  option_name : string;
  is_append : bool
}.

(** ** Classes *)

(** A class object with its [__bases__], its [__annotations__], the entries
    of its [__dict__] and, when [__dict__] has the key ['_calculators'], the
    table stored there (kept apart from [cdict] because it maps names to
    lists of calculators; its key is private and [__collect_value] skips
    it).  [annotations] is what [c.__annotations__] evaluates to.  [Object]
    is the universal root [object], with no bases; the parser never reads
    its annotations or its dictionary, since [_get_base_classes] leaves it
    out. *)
#[warnings="-register-all"]
Inductive pyclass : Type :=
| Object
| Class (name : string) (bases : list pyclass)
        (annotations : odict pyobj) (cdict : odict pyobj)
        (calculators : option (odict (list ConfigFunction))).

Definition class_bases (c : pyclass) : list pyclass :=
  match c with Object => [] | Class _ bs _ _ _ => bs end.

Definition class_annotations (c : pyclass) : odict pyobj :=
  match c with Object => [] | Class _ _ a _ _ => a end.

Definition class_dict (c : pyclass) : odict pyobj :=
  match c with Object => [] | Class _ _ _ d _ => d end.

Definition class_calculators (c : pyclass)
  : option (odict (list ConfigFunction)) :=
  match c with Object => None | Class _ _ _ _ t => t end.

(** [b == object] *)
Definition is_object (c : pyclass) : bool :=
  match c with Object => true | _ => false end.

Fixpoint class_size (c : pyclass) : nat :=
  match c with
  | Object => 1
  | Class _ bs _ _ _ => S (list_sum (map class_size bs))
  end.

(** ** [_get_base_classes] *)

(** The inner two [for] loops: the bases of the classes of [level], in
    order, without [object]. *)
Definition superclasses (c : pyclass) : list pyclass :=
  filter (fun b => negb (is_object b)) (class_bases c).

Definition next_level (level : list pyclass) : list pyclass :=
  flat_map superclasses level.

(** The measure that decreases along the [while] loop: the total size of
    the classes of the current level. *)
Definition level_size (level : list pyclass) : nat :=
  list_sum (map class_size level).

Lemma superclasses_size c :
  level_size (superclasses c) < class_size c.
Proof.
  destruct c as [|n bs a d t]; unfold superclasses, level_size; simpl; [lia|].
  apply Nat.lt_succ_r.
  induction bs as [|b bs IH]; simpl; [lia|].
  destruct (is_object b); simpl; lia.
Qed.

Lemma level_size_app l1 l2 :
  level_size (l1 ++ l2) = level_size l1 + level_size l2.
Proof.
  unfold level_size. rewrite map_app, list_sum_app. reflexivity.
Qed.

Lemma level_size_cons c level :
  level_size (c :: level) = class_size c + level_size level.
Proof. reflexivity. Qed.

Lemma next_level_cons c level :
  next_level (c :: level) = superclasses c ++ next_level level.
Proof. reflexivity. Qed.

Lemma next_level_bound level :
  level_size (next_level level) + List.length level <= level_size level.
Proof.
  induction level as [|c level IH]; [reflexivity|].
  rewrite next_level_cons, level_size_app, level_size_cons.
  pose proof (superclasses_size c). simpl. lia.
Qed.

Lemma next_level_size level :
  level <> [] -> level_size (next_level level) < level_size level.
Proof.
  intros Hne. pose proof (next_level_bound level).
  destruct level; [congruence|]. simpl in *. lia.
Qed.

(** The [while len(level) > 0] loop, with [classes] and [level] as its
    state; every round adds the next level to [classes]. *)
Equations? walk_levels (classes level : list pyclass) : list pyclass
  by wf (level_size level) lt :=
  walk_levels classes [] := classes;
  walk_levels classes (c :: level) :=
    walk_levels (classes ++ next_level (c :: level)) (next_level (c :: level)).
Proof.
  apply (next_level_size (c :: level)). discriminate.
Qed.

Definition get_base_classes (class_ : pyclass) : list pyclass :=
  rev (walk_levels [class_] [class_]).

(** ** Errors *)

(** The exceptions the constructor can raise, one constructor per site.
    The asserts of lines 61, 66, 71 and 131 raise [AssertionError];
    [StopIteration] is what [next] raises at line 119 on an empty option
    table, and [KeyError] what [self.types[k]] raises at line 122 on a
    missing key. *)
Inductive error : Type :=
| UnknownCalculatorTarget (k : string)
| UnknownInstanceAttribute (k : string)
| UnknownOverride (k : string)
| StopIteration
| KeyError (k : string)
| CannotCompute (k : string).

Definition is_assertion_error (e : error) : bool :=
  match e with
  | StopIteration | KeyError _ => false
  | _ => true
  end.

Inductive result (A : Type) : Type :=
| Ok (a : A)
| Err (e : error).
Arguments Ok {A} a.
Arguments Err {A} e.

Definition bind {A B} (m : result A) (f : A -> result B) : result B :=
  match m with
  | Ok a => f a
  | Err e => Err e
  end.

Notation "x <- m ;; k" := (bind m (fun x => k))
  (at level 61, m at next level, right associativity).

(** A [for] loop whose body may raise. *)
Fixpoint for_each {A S} (body : A -> S -> result S) (l : list A) (s : S)
  : result S :=
  match l with
  | [] => Ok s
  | a :: l' => s' <- body a s ;; for_each body l' s'
  end.

(** ** The parser *)

Definition RESERVED : list string := ["calc"; "list"].

(** [Parser.is_valid] *)
Definition is_valid (key : string) : bool :=
  if String.prefix "_" key then false
  else if existsb (String.eqb key) RESERVED then false
  else true.

(** The four dictionaries of a [Parser] instance. *)
Record Parser : Type := mkParser {
  values : odict pyobj;
  types : odict pyobj;
  options : odict (odict ConfigFunction);
  list_appends : odict (list ConfigFunction)
}.

Definition empty_parser : Parser := mkParser [] [] [] [].

Definition set_values (f : odict pyobj -> odict pyobj) (p : Parser) : Parser :=
  mkParser (f (values p)) (types p) (options p) (list_appends p).

Definition set_types (f : odict pyobj -> odict pyobj) (p : Parser) : Parser :=
  mkParser (values p) (f (types p)) (options p) (list_appends p).

Definition set_options
  (f : odict (odict ConfigFunction) -> odict (odict ConfigFunction))
  (p : Parser) : Parser :=
  mkParser (values p) (types p) (f (options p)) (list_appends p).

Definition set_list_appends
  (f : odict (list ConfigFunction) -> odict (list ConfigFunction))
  (p : Parser) : Parser :=
  mkParser (values p) (types p) (options p) (f (list_appends p)).

(** [Parser.__collect_value] *)
Definition collect_value (k : string) (v : pyobj) (p : Parser) : Parser :=
  if negb (is_valid k) then p
  else
    let p := set_values (Dict.set k v) p in
    if negb (Dict.mem k (types p))
    then set_types (Dict.set k (type_of v)) p
    else p.

(** [Parser.__collect_annotation] *)
Definition collect_annotation (k : string) (v : pyobj) (p : Parser) : Parser :=
  if negb (is_valid k) then p
  else set_types (Dict.set k v) p.

Definition get_or {A} (k : string) (d : odict A) (default : A) : A :=
  match Dict.get k d with Some a => a | None => default end.

(** [Parser.__collect_calculator] *)
Definition collect_calculator (k : string) (v : ConfigFunction) (p : Parser)
  : Parser :=
  if is_append v then
    set_list_appends
      (fun la => Dict.set k (get_or k la [] ++ [v]) la) p
  else
    set_options
      (fun os => Dict.set k (Dict.set (option_name v) v (get_or k os [])) os) p.

(** Lines 124-127: the option built for a name [k] declared with type [t]. *)
Definition implicit_option (k : string) (t : pyobj) : ConfigFunction :=
  mkConfigFunction t [k] k false.

(** [k in self.values and self.values[k] is not None] *)
Definition has_value (k : string) (p : Parser) : bool :=
  match Dict.get k (values p) with
  | Some v => is_not_none v
  | None => false
  end.

(** One round of [for k in self.types] in [__calculate_missing_values]. *)
Definition calculate_missing_value (k : string) (p : Parser) : result Parser :=
  if has_value k p then Ok p
  else if Dict.mem k (list_appends p) then Ok p
  else
    match Dict.get k (options p) with
    | Some opts =>
        match Dict.first_key opts with
        | Some name => Ok (set_values (Dict.set k (PStr name)) p)
        | None => Err StopIteration
        end
    | None =>
        match Dict.get k (types p) with
        | None => Err (KeyError k)
        | Some t =>
            if is_plain_class t then
              let p :=
                set_options
                  (Dict.set k (Dict.set k (implicit_option k t) Dict.empty)) p in
              Ok (set_values (Dict.set k (PStr k)) p)
            else if Dict.mem k (values p) then Ok p
            else Err (CannotCompute k)
        end
    end.

(** [Parser.__calculate_missing_values]; the loop does not change
    [self.types], so its keys are read once. *)
Definition calculate_missing_values (p : Parser) : result Parser :=
  for_each calculate_missing_value (Dict.keys (types p)) p.

(** [for k, v in items: f(k, v)] for a body that cannot raise. *)
Definition item_loop (f : string -> pyobj -> Parser -> Parser)
  (items : list (string * pyobj)) (p : Parser) : Parser :=
  fold_left (fun p kv => f (fst kv) (snd kv) p) items p.

(** Lines 51-56, for one class [c]. *)
Definition collect_class (c : pyclass) (p : Parser) : Parser :=
  let p := item_loop collect_annotation (Dict.items (class_annotations c)) p in
  item_loop collect_value (Dict.items (class_dict c)) p.

Definition collect_classes (classes : list pyclass) (p : Parser) : Parser :=
  fold_left (fun p c => collect_class c p) classes p.

(** Lines 60-63, for one entry of a class's calculator table. *)
Definition collect_calculators (kcalcs : string * list ConfigFunction)
  (p : Parser) : result Parser :=
  let (k, calcs) := kcalcs in
  if Dict.mem k (types p)
  then Ok (fold_left (fun p v => collect_calculator k v p) calcs p)
  else Err (UnknownCalculatorTarget k).

(** Lines 59-63, for one class. *)
Definition collect_class_calculators (c : pyclass) (p : Parser)
  : result Parser :=
  match class_calculators c with
  | Some table => for_each collect_calculators (Dict.items table) p
  | None => Ok p
  end.

(** Lines 66-67, for one entry of [configs.__dict__]. *)
Definition collect_instance_value (kv : string * pyobj) (p : Parser)
  : result Parser :=
  let (k, v) := kv in
  if Dict.mem k (types p) then Ok (collect_value k v p)
  else Err (UnknownInstanceAttribute k).

(** Lines 71-72, for one entry of [values]. *)
Definition collect_override_value (kv : string * pyobj) (p : Parser)
  : result Parser :=
  let (k, v) := kv in
  if Dict.mem k (types p) then Ok (collect_value k v p)
  else Err (UnknownOverride k).

(** A configuration object: its class and its instance [__dict__]. *)
Record Configs : Type := mkConfigs {
  configs_class : pyclass;
  configs_dict : odict pyobj
}.

(** Lines 43-72: the merge, before the missing values are computed. *)
Definition merge (configs : Configs) (overrides : option (odict pyobj))
  : result Parser :=
  let classes := get_base_classes (configs_class configs) in
  let p := collect_classes classes empty_parser in
  p <- for_each collect_class_calculators classes p ;;
  p <- for_each collect_instance_value (Dict.items (configs_dict configs)) p ;;
  match overrides with
  | Some vals => for_each collect_override_value (Dict.items vals) p
  | None => Ok p
  end.

(** [Parser.__init__] *)
Definition Parser_init (configs : Configs) (overrides : option (odict pyobj))
  : result Parser :=
  p <- merge configs overrides ;;
  calculate_missing_values p.

(** ** Predicates on the parser's state *)

(** Only valid names are keys of [types], and of [values]. *)
Definition types_valid (p : Parser) : Prop :=
  forall k, Dict.mem k (types p) = true -> is_valid k = true.

Definition values_valid (p : Parser) : Prop :=
  forall k, Dict.mem k (values p) = true -> is_valid k = true.

(** The five ways in which a round of the loop can end without raising,
    in the order of the source. *)
Inductive round_outcome (k : string) (p : Parser) : Parser -> Prop :=
| KeepValue :
    has_value k p = true -> round_outcome k p p
| LeaveToAppends :
    has_value k p = false -> Dict.mem k (list_appends p) = true ->
    round_outcome k p p
| FirstOption opts name :
    has_value k p = false -> Dict.mem k (list_appends p) = false ->
    Dict.get k (options p) = Some opts -> Dict.first_key opts = Some name ->
    round_outcome k p (set_values (Dict.set k (PStr name)) p)
| ImplicitOption t :
    has_value k p = false -> Dict.mem k (list_appends p) = false ->
    Dict.get k (options p) = None ->
    Dict.get k (types p) = Some t -> is_plain_class t = true ->
    round_outcome k p
      (set_values (Dict.set k (PStr k))
         (set_options (Dict.set k [(k, implicit_option k t)]) p))
| KeepNone t :
    has_value k p = false -> Dict.mem k (list_appends p) = false ->
    Dict.get k (options p) = None ->
    Dict.get k (types p) = Some t -> is_plain_class t = false ->
    Dict.get k (values p) = Some PNone ->
    round_outcome k p p.

(** What the missing-value pass leaves behind for a name: a value, an
    option table, a list of appenders, or a [None] the caller wrote for a
    name whose declared type is not a plain class. *)
Definition settled (k : string) (p : Parser) : Prop :=
  has_value k p = true \/
  Dict.mem k (options p) = true \/
  Dict.mem k (list_appends p) = true \/
  (Dict.get k (values p) = Some PNone /\
   exists t, Dict.get k (types p) = Some t /\ is_plain_class t = false).

(** A name without a value whose first-inserted option is [name]. *)
Definition awaits_option (k name : string) (p : Parser) : Prop :=
  has_value k p = false /\
  Dict.mem k (list_appends p) = false /\
  exists opts, Dict.get k (options p) = Some opts /\
               Dict.first_key opts = Some name.

(** A name of declared type [t] with no value, options or appenders. *)
Definition bare (k : string) (t : pyobj) (p : Parser) : Prop :=
  Dict.get k (types p) = Some t /\
  has_value k p = false /\
  Dict.mem k (options p) = false /\
  Dict.mem k (list_appends p) = false.

(** The value and the option table that line 123-128 give to [k]. *)
Definition instantiated (k : string) (t : pyobj) (p : Parser) : Prop :=
  Dict.get k (values p) = Some (PStr k) /\
  Dict.get k (options p) = Some [(k, implicit_option k t)].

(** A sequence of registrations [__collect_calculator(k, v)], as lines
    58-63 issue them over the classes and their tables. *)
Definition register (regs : list (string * ConfigFunction)) (p : Parser)
  : Parser :=
  fold_left (fun p kv => collect_calculator (fst kv) (snd kv) p) regs p.

(** ** Single inheritance *)

(** Every class of the hierarchy has at most one base. *)
Fixpoint single_inheritance (c : pyclass) : bool :=
  match c with
  | Object => true
  | Class _ bs _ _ _ =>
      match bs with
      | [] => true
      | [b] => single_inheritance b
      | _ => false
      end
  end.

(** The class, its base, the base of its base, ..., without [object]. *)
Fixpoint chain (c : pyclass) : list pyclass :=
  match c with
  | Object => []
  | Class _ bs _ _ _ =>
      c :: match bs with
           | [b] => chain b
           | _ => []
           end
  end.

(** ** Ancestors *)

(** [reaches c a]: [a] is [c] itself or is reached from [c] by following
    entries of [__bases__] other than [object]. *)
Inductive reaches : pyclass -> pyclass -> Prop :=
| reaches_self c : reaches c c
| reaches_base c b a :
    In b (class_bases c) -> b <> Object -> reaches b a -> reaches c a.

(** ** More predicates on the parser's state *)

(** Every option table that exists has an entry. *)
Definition options_nonempty (p : Parser) : Prop :=
  forall k opts, Dict.get k (options p) = Some opts -> opts <> [].

(** A name for which the missing-value pass has nothing to go on: a
    declared type that is not a plain class, and no entry in [values],
    [options] or [list_appends]. *)
Definition unresolvable (k : string) (p : Parser) : Prop :=
  exists t, bare k t p /\ is_plain_class t = false /\
            Dict.mem k (values p) = false.

(** The names a class declares: the keys of its annotations and of its
    dictionary. *)
Definition declares (c : pyclass) (k : string) : bool :=
  Dict.mem k (class_annotations c) || Dict.mem k (class_dict c).

(** Every key of [values], [options] and [list_appends] is a key of
    [types]. *)
Definition declared_only (p : Parser) : Prop :=
  forall k,
    Dict.mem k (values p) = true \/ Dict.mem k (options p) = true \/
    Dict.mem k (list_appends p) = true ->
    Dict.mem k (types p) = true.

(** The invariants of a parser under construction. *)
Definition well_formed (p : Parser) : Prop :=
  types_valid p /\ declared_only p /\ options_nonempty p.

(** ** The collector as the spec words it *)

(** The direct supertypes of a type as the type descriptor lists them,
    the universal root left out. *)
Fixpoint without_root (supertypes : list pyclass) : list pyclass :=
  match supertypes with
  | [] => []
  | Object :: rest => without_root rest
  | b :: rest => b :: without_root rest
  end.

Definition direct_supertypes (c : pyclass) : list pyclass :=
  without_root (class_bases c).

Lemma direct_supertypes_size c :
  level_size (direct_supertypes c) < class_size c.
Proof.
  destruct c as [|n bs a d t]; unfold direct_supertypes, level_size; simpl;
    [lia|].
  apply Nat.lt_succ_r.
  induction bs as [|b bs IH]; simpl; [lia|].
  destruct b; simpl in *; lia.
Qed.

(** Breadth-first walk with a queue: take the first class of the queue,
    record it, and put its direct supertypes (without the universal root)
    at the end of the queue.  No class is ever skipped as already seen. *)
Equations? bfs_walk (queue : list pyclass) : list pyclass
  by wf (level_size queue) lt :=
  bfs_walk [] := [];
  bfs_walk (c :: queue) := c :: bfs_walk (queue ++ direct_supertypes c).
Proof.
  rewrite level_size_app, level_size_cons.
  pose proof (direct_supertypes_size c). lia.
Qed.

(** "collect, then reverse" *)
Definition collect_spec (concreteType : pyclass) : list pyclass :=
  rev (bfs_walk [concreteType]).

(** * Checkpoints of [labml.internal.experiment]

    [CheckpointSaver] of [src/labml/internal/experiment/__init__.py].  The
    models behind the savers and the files are outside the program: a
    [ModelSaver] is represented by what its [save] returns for a checkpoint
    directory, [info.json] by the dictionary it encodes (the savers are taken
    to return values that [json.dumps] and [json.loads] give back
    unchanged), and the checkpoint directories under [self.path] by the
    dictionary of their names.  Failures of the operating system are not
    modelled. *)

Module Checkpoint.

(** What [ModelSaver.save] returns, given the checkpoint directory. *)
Record ModelSaver : Type := mkModelSaver {
  save_model : string -> pyobj
}.

Record CheckpointSaver : Type := mkCheckpointSaver {
  model_savers : odict ModelSaver;
  no_savers_warned : bool
}.

(** The directories under [self.path], each with the content of its
    [info.json] once that file is written. *)
Definition directories : Type := odict (option (odict pyobj)).

Inductive failure : Type :=
| NoExperiment                    (* line 409: [assert _internal is not None] *)
| AlreadyStarted                  (* line 44: [RuntimeError] *)
| CheckpointExists (step : string)   (* line 67: [assert not ...exists()] *)
| NoInfoFile (step : string)      (* line 95: [open] of a missing file *)
| UnknownModel (name : string)    (* line 112: [KeyError] *)
| NoModelInfo (name : string).    (* line 113: [KeyError] *)

(** What a call shows to the outside: the notices it prints and the calls
    of [saver.load] it makes. *)
Inductive event : Type :=
| NoSaversNotice
| MissingNotice (missing to_load : list string)
| NotLoadedNotice (not_loaded : list string)
| LoadModel (name : string) (info : pyobj).

(** [d.update(other)] *)
Definition update {A} (d other : odict A) : odict A :=
  fold_left (fun d kv => Dict.set (fst kv) (snd kv) d) other d.

(** [CheckpointSaver.add_savers]; [experiment] is the global [_internal],
    reduced to its [is_started] flag. *)
Definition add_savers (experiment : option bool) (models : odict ModelSaver)
  (cs : CheckpointSaver) : failure + CheckpointSaver :=
  match experiment with
  | None => inl NoExperiment
  | Some true => inl AlreadyStarted
  | Some false =>
      inr (mkCheckpointSaver (update (model_savers cs) models)
             (no_savers_warned cs))
  end.

(** Lines 54-60 and 84-90: the early return when no saver is registered. *)
Definition warn_no_savers (cs : CheckpointSaver)
  : CheckpointSaver * list event :=
  if no_savers_warned cs then (cs, [])
  else (mkCheckpointSaver (model_savers cs) true, [NoSaversNotice]).

(** Lines 71-73: the dictionary written to [info.json]. *)
Definition collect_info (savers : odict ModelSaver) (step : string)
  : odict pyobj :=
  fold_left (fun info ns => Dict.set (fst ns) (save_model (snd ns) step) info)
    (Dict.items savers) Dict.empty.

(** [CheckpointSaver.save]; [step] is [str(global_step)]. *)
Definition save (step : string) (cs : CheckpointSaver) (dirs : directories)
  : failure + (CheckpointSaver * directories * list event) :=
  match model_savers cs with
  | [] => let (cs', events) := warn_no_savers cs in inr (cs', dirs, events)
  | _ =>
      if Dict.mem step dirs then inl (CheckpointExists step)
      else
        inr (cs,
             Dict.set step (Some (collect_info (model_savers cs) step)) dirs,
             [])
  end.

(** Lines 98-108: the three lists. *)
Definition to_load_of (models : list string) (info : odict pyobj)
  : list string :=
  filter (fun name => Dict.mem name info) models.

Definition missing_of (models : list string) (info : odict pyobj)
  : list string :=
  filter (fun name => negb (Dict.mem name info)) models.

Definition not_loaded_of (models : list string) (info : odict pyobj)
  : list string :=
  filter (fun name => negb (existsb (String.eqb name) models))
    (Dict.keys info).

(** Lines 111-113: the calls made until a lookup fails. *)
Fixpoint load_each (savers : odict ModelSaver) (info : odict pyobj)
  (names : list string) : list event * option failure :=
  match names with
  | [] => ([], None)
  | name :: rest =>
      match Dict.get name savers, Dict.get name info with
      | None, _ => ([], Some (UnknownModel name))
      | Some _, None => ([], Some (NoModelInfo name))
      | Some _, Some i =>
          let (events, failed) := load_each savers info rest in
          (LoadModel name i :: events, failed)
      end
  end.

(** Lines 115-125: the notices after the loads. *)
Definition notices (missing to_load not_loaded : list string) : list event :=
  (match missing with [] => [] | _ => [MissingNotice missing to_load] end) ++
  (match not_loaded with [] => [] | _ => [NotLoadedNotice not_loaded] end).

(** The models that [load] works with: the requested ones, or all the
    registered ones when none is requested ([if not models]). *)
Definition requested (models : option (list string)) (cs : CheckpointSaver)
  : list string :=
  match models with
  | None | Some [] => Dict.keys (model_savers cs)
  | Some names => names
  end.

(** [CheckpointSaver.load]; [info] is the content of [info.json] in the
    checkpoint directory.  The result is the saver, the events up to the
    end or to the exception, and the exception if one is raised. *)
Definition load (info : odict pyobj) (models : option (list string))
  (cs : CheckpointSaver) : CheckpointSaver * list event * option failure :=
  match model_savers cs with
  | [] => let (cs', events) := warn_no_savers cs in (cs', events, None)
  | _ =>
      let models := requested models cs in
      let to_load := to_load_of models info in
      let missing := missing_of models info in
      let not_loaded := not_loaded_of models info in
      match load_each (model_savers cs) info to_load with
      | (events, Some e) => (cs, events, Some e)
      | (events, None) =>
          (cs, events ++ notices missing to_load not_loaded, None)
      end
  end.

(** [load] on the directory [step]: line 95 opens its [info.json]. *)
Definition load_from (dirs : directories) (step : string)
  (models : option (list string)) (cs : CheckpointSaver)
  : CheckpointSaver * list event * option failure :=
  match model_savers cs with
  | [] => load [] models cs
  | _ =>
      match Dict.get step dirs with
      | Some (Some info) => load info models cs
      | _ => (cs, [], Some (NoInfoFile step))
      end
  end.

(** The names of the models a run of events loaded, in order, and the
    notices it printed. *)
Definition loaded_names (events : list event) : list string :=
  flat_map (fun e => match e with LoadModel name _ => [name] | _ => [] end)
    events.

Definition printed (events : list event) : list event :=
  filter (fun e => match e with LoadModel _ _ => false | _ => true end)
    events.

End Checkpoint.

(** * The caller's file, [lab.experiment]

    [Experiment.__get_caller_file] of [src/lab/experiment/__init__.py];
    [frames] are the file names [str(pathlib.PurePath(f.filename))] of the
    stack, innermost first, and [lab_src] is [str(lab_src)]. *)
Fixpoint get_caller_file (lab_src : string) (frames : list string) : string :=
  match frames with
  | [] => ""
  | module_path :: rest =>
      if String.prefix lab_src module_path
      then get_caller_file lab_src rest
      else module_path
  end.

(** * Example hierarchies *)

Module Examples.

(** [class Base: x: int] and [class Derived(Base): x: str] *)
Definition Base : pyclass :=
Class "Base" [Object] [("x", py_int)] [] None.
Definition Derived : pyclass :=
Class "Derived" [Base] [("x", py_str)] [] None.

(** A calculator that appends to a list, and two named options. *)
Definition appender : ConfigFunction :=
  mkConfigFunction (PInst "function" "type" "append_layer") ["layers"]
    "append_layer" true.
Definition fast : ConfigFunction :=
  mkConfigFunction (PInst "function" "type" "fast") ["mode"] "fast" false.
Definition slow : ConfigFunction :=
  mkConfigFunction (PInst "function" "type" "slow") ["mode"] "slow" false.

(** [class Modes: mode: str], with the options ["fast"] then ["slow"]. *)
Definition Modes : pyclass :=
  Class "Modes" [Object] [("mode", py_str)] []
    (Some [("mode", [fast; slow])]).

(** [class Counter: count: int] *)
Definition Counter : pyclass :=
  Class "Counter" [Object] [("count", py_int)] [] None.

(** [class Listy: x: List[int] = None] *)
Definition Listy : pyclass :=
  Class "Listy" [Object] [("x", PGeneric "List[int]")] [("x", PNone)] None.

(** [class Stack: encoder: EncoderConfig], with one appender registered
    for [encoder]. *)
Definition EncoderConfig : pyobj := PClass "EncoderConfig" "type".
Definition encoder_appender : ConfigFunction :=
  mkConfigFunction (PInst "function" "type" "add_encoder") ["encoder"]
    "add_encoder" true.
Definition Stack : pyclass :=
  Class "Stack" [Object] [("encoder", EncoderConfig)] []
    (Some [("encoder", [encoder_appender])]).

(** [class Model: encoder: EncoderConfig] *)
Definition Model : pyclass :=
  Class "Model" [Object] [("encoder", EncoderConfig)] [] None.

(** The state after the class pass over [Modes], and the state of a
    parser that knows [x: List[int]] and nothing else about [x]. *)
Definition modes_declared : Parser := mkParser [] [("mode", py_str)] [] [].
Definition list_declared : Parser :=
  mkParser [] [("x", PGeneric "List[int]")] [] [].
Definition encoder_declared : Parser :=
  mkParser [] [("encoder", EncoderConfig)] [] [].

(** A diamond whose branches differ in depth: [A] sets [x = 1], its
    subclass [M] sets [x = 2], and [D(X, B)] reaches [A] through [X(A)] in
    two steps and through [B(M)], [M(A)] in three. *)
Definition A : pyclass := Class "A" [Object] [] [("x", PInt 1)] None.
Definition M : pyclass := Class "M" [A] [] [("x", PInt 2)] None.
Definition X : pyclass := Class "X" [A] [] [] None.
Definition B : pyclass := Class "B" [M] [] [] None.
Definition D : pyclass := Class "D" [X; B] [] [] None.

(** Two registered savers, and the saver of an experiment without
    models. *)
Definition encoder_saver : Checkpoint.ModelSaver :=
  Checkpoint.mkModelSaver (fun step => PStr ("encoder-" ++ step)).
Definition decoder_saver : Checkpoint.ModelSaver :=
  Checkpoint.mkModelSaver (fun step => PStr ("decoder-" ++ step)).
Definition two_models : Checkpoint.CheckpointSaver :=
  Checkpoint.mkCheckpointSaver
    [("encoder", encoder_saver); ("decoder", decoder_saver)] false.
Definition no_models : Checkpoint.CheckpointSaver :=
  Checkpoint.mkCheckpointSaver [] false.

End Examples.

(** * Properties of the collector *)

Section Collector.

Lemma walk_levels_nil classes : walk_levels classes [] = classes.
Proof. now simp walk_levels. Qed.

Lemma walk_levels_cons classes c level :
  walk_levels classes (c :: level) =
  walk_levels (classes ++ next_level (c :: level)) (next_level (c :: level)).
Proof. now simp walk_levels. Qed.

(** The accumulator [classes] is only ever extended. *)
Lemma walk_levels_acc_bounded n :
  forall level, level_size level < n ->
  forall classes, walk_levels classes level = classes ++ walk_levels [] level.
Proof.
  induction n as [|n IH]; intros level Hn classes; [lia|].
  destruct level as [|c level].
  - rewrite !walk_levels_nil, app_nil_r. reflexivity.
  - rewrite !walk_levels_cons.
    assert (Hlt : level_size (next_level (c :: level)) < n).
    { pose proof (@next_level_size (c :: level)) as H.
      assert (c :: level <> []) by discriminate. specialize (H H0). lia. }
    rewrite (IH _ Hlt (classes ++ _)), (IH _ Hlt ([] ++ _)).
    rewrite app_assoc. reflexivity.
Qed.

Lemma walk_levels_acc classes level :
  walk_levels classes level = classes ++ walk_levels [] level.
Proof. apply (@walk_levels_acc_bounded (S (level_size level))). lia. Qed.

Lemma walk_levels_step c level :
  walk_levels [] (c :: level) =
  next_level (c :: level) ++ walk_levels [] (next_level (c :: level)).
Proof. rewrite walk_levels_cons. simpl app. apply walk_levels_acc. Qed.

(** The bases the inner loops append are the direct supertypes without
    the universal root. *)
Lemma superclasses_direct c : superclasses c = direct_supertypes c.
Proof.
  unfold superclasses, direct_supertypes.
  induction (class_bases c) as [|b bs IH]; simpl; [reflexivity|].
  destruct b; simpl; [exact IH|now rewrite IH].
Qed.

Lemma in_superclasses b c :
  In b (superclasses c) <-> In b (class_bases c) /\ b <> Object.
Proof.
  unfold superclasses. rewrite filter_In. split; intros [Hin Hb].
  - split; [exact Hin|]. intros ->. discriminate.
  - split; [exact Hin|]. destruct b; [congruence|reflexivity].
Qed.

Lemma no_superclasses c :
  superclasses c = [] -> forall b, In b (class_bases c) -> b = Object.
Proof.
  intros H b Hin. destruct b as [|n bs a d t]; [reflexivity|].
  assert (Hs : In (Class n bs a d t) (superclasses c)).
  { apply in_superclasses. split; [exact Hin|discriminate]. }
  rewrite H in Hs. destruct Hs.
Qed.

(** A queue that starts with [l] emits [l] and then goes on with the
    supertypes of [l] behind what was waiting. *)
Lemma bfs_walk_app l :
  forall queue, bfs_walk (l ++ queue) = l ++ bfs_walk (queue ++ next_level l).
Proof.
  induction l as [|c l IH]; intros queue; simpl.
  - rewrite app_nil_r. reflexivity.
  - simp bfs_walk. rewrite <- superclasses_direct.
    rewrite <- app_assoc, IH, <- app_assoc. reflexivity.
Qed.

Lemma bfs_walk_levels_bounded n :
  forall level, level_size level < n ->
  bfs_walk level = level ++ walk_levels [] level.
Proof.
  induction n as [|n IH]; intros level Hn; [lia|].
  destruct level as [|c level].
  - simp bfs_walk. rewrite walk_levels_nil. reflexivity.
  - rewrite walk_levels_step.
    rewrite <- (app_nil_r (c :: level)) at 1.
    rewrite bfs_walk_app.
    change ([] ++ next_level (c :: level)) with (next_level (c :: level)).
    rewrite IH; [reflexivity|].
    pose proof (@next_level_size (c :: level)) as H.
    assert (c :: level <> []) by discriminate. specialize (H H0). lia.
Qed.

Lemma bfs_walk_levels level :
  bfs_walk level = level ++ walk_levels [] level.
Proof. apply (@bfs_walk_levels_bounded (S (level_size level))). lia. Qed.

Lemma superclasses_not_object c :
  Forall (fun b => b <> Object) (superclasses c).
Proof.
  apply Forall_forall. intros b Hb. apply filter_In in Hb.
  destruct Hb as [_ Hb]. destruct b; [discriminate|congruence].
Qed.

Lemma next_level_not_object level :
  Forall (fun b => b <> Object) (next_level level).
Proof.
  induction level as [|c level IH]; [constructor|].
  rewrite next_level_cons. apply Forall_app. split; [|exact IH].
  apply superclasses_not_object.
Qed.

Lemma walk_levels_not_object_bounded n :
  forall level, level_size level < n ->
  Forall (fun b => b <> Object) (walk_levels [] level).
Proof.
  induction n as [|n IH]; intros level Hn; [lia|].
  destruct level as [|c level].
  - rewrite walk_levels_nil. constructor.
  - rewrite walk_levels_step. apply Forall_app. split.
    + apply next_level_not_object.
    + apply IH.
      pose proof (@next_level_size (c :: level)) as H.
      assert (c :: level <> []) by discriminate. specialize (H H0). lia.
Qed.

Lemma next_level_empty level :
  next_level level = [] -> Forall (fun c => superclasses c = []) level.
Proof.
  induction level as [|c level IH]; intros H; [constructor|].
  rewrite next_level_cons in H. apply app_eq_nil in H.
  destruct H as [Hc Hl]. constructor; auto.
Qed.

(** The walk ends on a class without supertypes. *)
Lemma walk_ends_on_root_bounded n :
  forall level, level_size level < n -> level <> [] ->
  exists l a, level ++ walk_levels [] level = l ++ [a] /\ superclasses a = [].
Proof.
  induction n as [|n IH]; intros level Hn Hne; [lia|].
  destruct level as [|c level]; [congruence|].
  rewrite walk_levels_step.
  destruct (next_level (c :: level)) as [|c' level'] eqn:Hnext.
  - rewrite walk_levels_nil. simpl app. rewrite app_nil_r.
    destruct (@exists_last _ (c :: level) Hne) as [l [a Hl]].
    exists l, a. split; [exact Hl|].
    apply next_level_empty in Hnext. rewrite Hl in Hnext.
    apply Forall_app in Hnext. destruct Hnext as [_ Ha].
    now inversion Ha.
  - destruct (IH (c' :: level')) as [l [a [Hl Ha]]].
    + pose proof (@next_level_size (c :: level)) as H.
      assert (c :: level <> []) by discriminate. specialize (H H0).
      rewrite Hnext in H. lia.
    + discriminate.
    + exists ((c :: level) ++ l), a. split; [|exact Ha].
      rewrite <- app_assoc, <- Hl. reflexivity.
Qed.

End Collector.

(** C9: [_get_base_classes] returns the reverse of the breadth-first walk
    from the concrete type over the direct supertypes listed in
    [__bases__], without the universal root and with the duplicates of
    diamonds kept; the concrete type comes last, and the first class is a
    most ancestral one: its only possible base is the universal root. *)
Theorem get_base_classes_is_reversed_bfs (class_ : pyclass) :
  get_base_classes class_ = collect_spec class_ /\
  (exists ancestors, get_base_classes class_ = ancestors ++ [class_] /\
                     Forall (fun b => b <> Object) ancestors) /\
  (exists root rest, get_base_classes class_ = root :: rest /\
                     forall b, In b (class_bases root) -> b = Object).
Proof.
  unfold get_base_classes, collect_spec.
  rewrite walk_levels_acc, bfs_walk_levels.
  split; [reflexivity|]. split.
  - exists (rev (walk_levels [] [class_])). split.
    + simpl app. change (class_ :: ?l) with ([class_] ++ l).
      rewrite rev_app_distr. reflexivity.
    + apply Forall_rev.
      apply (@walk_levels_not_object_bounded (S (level_size [class_]))). lia.
  - destruct (@walk_ends_on_root_bounded (S (level_size [class_])) [class_])
      as [l [a [Hl Ha]]]; [lia|discriminate|].
    exists a, (rev l). split; [|now apply no_superclasses].
    rewrite Hl, rev_app_distr. reflexivity.
Qed.

(** * Facts about insertion-ordered dictionaries *)

Section DictFacts.

Context {A : Type}.
Implicit Types (d : odict A) (k : string) (v : A).

Lemma get_set_same k v d : Dict.get k (Dict.set k v d) = Some v.
Proof.
  induction d as [|[k' v'] d IH]; simpl.
  - now rewrite String.eqb_refl.
  - destruct (String.eqb k k') eqn:E; simpl; rewrite E; auto.
Qed.

Lemma get_set_other k k' v d :
  k <> k' -> Dict.get k (Dict.set k' v d) = Dict.get k d.
Proof.
  intros Hne. induction d as [|[k0 v0] d IH]; simpl.
  - apply String.eqb_neq in Hne. now rewrite Hne.
  - destruct (String.eqb k' k0) eqn:E; simpl.
    + apply String.eqb_eq in E. subst k0.
      apply String.eqb_neq in Hne. now rewrite Hne.
    + now rewrite IH.
Qed.

Lemma mem_set_same k v d : Dict.mem k (Dict.set k v d) = true.
Proof. unfold Dict.mem. now rewrite get_set_same. Qed.

Lemma mem_set_other k k' v d :
  k <> k' -> Dict.mem k (Dict.set k' v d) = Dict.mem k d.
Proof. intros. unfold Dict.mem. now rewrite get_set_other. Qed.

Lemma mem_set_true k k' v d :
  Dict.mem k d = true -> Dict.mem k (Dict.set k' v d) = true.
Proof.
  intros H. destruct (String.eqb_spec k k') as [->|Hne].
  - apply mem_set_same.
  - now rewrite mem_set_other.
Qed.

Lemma mem_In k d : Dict.mem k d = true <-> In k (Dict.keys d).
Proof.
  unfold Dict.mem. induction d as [|[k' v'] d IH]; simpl.
  - split; [discriminate|tauto].
  - destruct (String.eqb_spec k k') as [->|Hne].
    + split; auto.
    + rewrite IH. split; [auto|]. intros [H|H]; [congruence|exact H].
Qed.

Lemma mem_false_get k d : Dict.mem k d = false <-> Dict.get k d = None.
Proof.
  unfold Dict.mem. destruct (Dict.get k d); split; congruence.
Qed.

Lemma get_some_mem k v d : Dict.get k d = Some v -> Dict.mem k d = true.
Proof. unfold Dict.mem. now intros ->. Qed.

(** Writing to a dictionary never changes which key comes first, once
    there is one. *)
Lemma first_key_set k v d n :
  Dict.first_key d = Some n -> Dict.first_key (Dict.set k v d) = Some n.
Proof.
  destruct d as [|[k' v'] d]; simpl; [discriminate|].
  destruct (String.eqb k k'); auto.
Qed.

Lemma get_In k v d : Dict.get k d = Some v -> In (k, v) d.
Proof.
  induction d as [|[k' v'] d IH]; simpl; [discriminate|].
  destruct (String.eqb_spec k k') as [->|Hne].
  - intros [= ->]. now left.
  - auto.
Qed.

End DictFacts.

(** * Facts about loops that may raise *)

Section Loops.

Context {A S : Type} (body : A -> S -> result S).

(** A property kept by every successful round is kept by the loop. *)
Lemma for_each_preserves (P : S -> Prop) l :
  (forall a s s', In a l -> P s -> body a s = Ok s' -> P s') ->
  forall s s', P s -> for_each body l s = Ok s' -> P s'.
Proof.
  induction l as [|a l IH]; intros Hstep s s' Hs; simpl.
  - now intros [= <-].
  - destruct (body a s) as [s1|e] eqn:E; simpl; [|discriminate].
    apply IH; [|apply (Hstep a s s1); [now left|exact Hs|exact E]].
    intros a0 t t' Hin. apply Hstep. now right.
Qed.

(** What round [a] establishes from the loop invariant [P], and every
    round keeps, holds after a loop that runs round [a]. *)
Lemma for_each_establishes (P Q : S -> Prop) l a :
  In a l ->
  (forall b s s', P s -> body b s = Ok s' -> P s') ->
  (forall s s', P s -> body a s = Ok s' -> Q s') ->
  (forall b s s', Q s -> body b s = Ok s' -> Q s') ->
  forall s s', P s -> for_each body l s = Ok s' -> Q s'.
Proof.
  intros Hin HP Ha HQ.
  induction l as [|b l IH]; intros s s' Hs; [destruct Hin|].
  simpl. destruct (body b s) as [s1|e] eqn:E; simpl; [|discriminate].
  destruct Hin as [->|Hin].
  - apply (for_each_preserves Q); [|eapply Ha; eassumption].
    intros b t t' _. apply HQ.
  - apply IH; [exact Hin|]. eapply HP; eassumption.
Qed.

(** The loop raises only what one of its rounds raises. *)
Lemma for_each_error (Q : error -> Prop) l :
  (forall a s e, In a l -> body a s = Err e -> Q e) ->
  forall s e, for_each body l s = Err e -> Q e.
Proof.
  induction l as [|a l IH]; intros Hbody s e; simpl; [discriminate|].
  destruct (body a s) as [s1|e1] eqn:E; simpl.
  - apply IH. intros b t e' Hb. apply Hbody. now right.
  - intros [= <-]. apply (Hbody a s e1); [now left|exact E].
Qed.

(** If some round must raise in every state that satisfies an invariant
    of the loop, the loop raises. *)
Lemma for_each_raises (P : S -> Prop) (Q : error -> Prop) l a :
  In a l ->
  (forall b s s', In b l -> P s -> body b s = Ok s' -> P s') ->
  (forall b s e, In b l -> P s -> body b s = Err e -> Q e) ->
  (forall s, P s -> exists e, body a s = Err e) ->
  forall s, P s -> exists e, for_each body l s = Err e /\ Q e.
Proof.
  induction l as [|b l IH]; intros Hin Hstep Herr Hfail s Hs; [destruct Hin|].
  simpl. destruct (body b s) as [s1|e] eqn:E; simpl.
  - destruct Hin as [->|Hin].
    + destruct (Hfail s Hs) as [e He]. congruence.
    + apply IH; auto.
      * intros b0 t t' Hb. apply Hstep. now right.
      * intros b0 t e Hb. apply Herr. now right.
      * apply (Hstep b s s1); [now left|exact Hs|exact E].
  - exists e. split; [reflexivity|].
    apply (Herr b s e); [now left|exact Hs|exact E].
Qed.

End Loops.

(** * Facts about the collectors of the parser *)

Section Collectors.

Implicit Types (p : Parser) (k : string) (v t : pyobj).

Lemma collect_value_invalid k v p :
  is_valid k = false -> collect_value k v p = p.
Proof. intros H. unfold collect_value. now rewrite H. Qed.

Lemma collect_value_types_known k v p :
  Dict.mem k (types p) = true -> types (collect_value k v p) = types p.
Proof.
  intros H. unfold collect_value.
  destruct (is_valid k); simpl; [|reflexivity]. now rewrite H.
Qed.

Lemma collect_value_types_get k k' v t p :
  Dict.get k (types p) = Some t ->
  Dict.get k (types (collect_value k' v p)) = Some t.
Proof.
  intros H. unfold collect_value.
  destruct (is_valid k'); simpl; [|exact H].
  destruct (Dict.mem k' (types p)) eqn:E; simpl; [exact H|].
  rewrite get_set_other; [exact H|].
  intros ->. apply get_some_mem in H. congruence.
Qed.

Lemma collect_value_values_same k v p :
  is_valid k = true -> Dict.get k (values (collect_value k v p)) = Some v.
Proof.
  intros H. unfold collect_value. rewrite H. simpl.
  destruct (Dict.mem k (types p)); simpl; apply get_set_same.
Qed.

Lemma collect_value_values_other k k' v p :
  k' <> k ->
  Dict.get k (values (collect_value k' v p)) = Dict.get k (values p).
Proof.
  intros H. unfold collect_value.
  destruct (is_valid k'); simpl; [|reflexivity].
  destruct (Dict.mem k' (types p)); simpl; apply get_set_other; congruence.
Qed.

Lemma collect_annotation_values k v p :
  values (collect_annotation k v p) = values p.
Proof. unfold collect_annotation. now destruct (is_valid k). Qed.

Lemma collect_annotation_types_same k t p :
  is_valid k = true ->
  Dict.get k (types (collect_annotation k t p)) = Some t.
Proof.
  intros H. unfold collect_annotation. rewrite H. simpl. apply get_set_same.
Qed.

Lemma collect_annotation_types_other k k' t p :
  k' <> k ->
  Dict.get k (types (collect_annotation k' t p)) = Dict.get k (types p).
Proof.
  intros H. unfold collect_annotation.
  destruct (is_valid k'); simpl; [|reflexivity].
  apply get_set_other. congruence.
Qed.

Lemma collect_calculator_types k f p :
  types (collect_calculator k f p) = types p.
Proof. unfold collect_calculator. now destruct (is_append f). Qed.

Lemma collect_calculator_values k f p :
  values (collect_calculator k f p) = values p.
Proof. unfold collect_calculator. now destruct (is_append f). Qed.

Lemma collect_value_types_valid k v p :
  types_valid p -> types_valid (collect_value k v p).
Proof.
  intros H k0 Hk0. unfold collect_value in Hk0.
  destruct (is_valid k) eqn:Ek; simpl in Hk0; [|auto].
  destruct (Dict.mem k (types p)) eqn:E; simpl in Hk0; [auto|].
  destruct (String.eqb_spec k0 k) as [->|Hne]; [exact Ek|].
  rewrite mem_set_other in Hk0 by exact Hne. auto.
Qed.

Lemma collect_annotation_types_valid k t p :
  types_valid p -> types_valid (collect_annotation k t p).
Proof.
  intros H k0 Hk0. unfold collect_annotation in Hk0.
  destruct (is_valid k) eqn:Ek; simpl in Hk0; [|auto].
  destruct (String.eqb_spec k0 k) as [->|Hne]; [exact Ek|].
  rewrite mem_set_other in Hk0 by exact Hne. auto.
Qed.

Lemma collect_value_values_valid k v p :
  values_valid p -> values_valid (collect_value k v p).
Proof.
  intros H k0 Hk0.
  destruct (String.eqb_spec k0 k) as [->|Hne].
  - destruct (is_valid k) eqn:Ek; [reflexivity|].
    rewrite collect_value_invalid in Hk0 by exact Ek.
    rewrite <- Ek. auto.
  - unfold Dict.mem in Hk0.
    rewrite collect_value_values_other in Hk0 by congruence. now apply H.
Qed.

End Collectors.

(** Item loops seen through one entry [view] of the parser's state, which
    the body writes at its own key only. *)
Section ItemLoops.

Context {X : Type}.
Variable f : string -> pyobj -> Parser -> Parser.
Variable view : Parser -> option X.
Variable w : pyobj -> X.
Variable k : string.

Hypothesis other : forall k' v p, k' <> k -> view (f k' v p) = view p.

Lemma item_loop_other items :
  Dict.mem k items = false ->
  forall p, view (item_loop f items p) = view p.
Proof.
  unfold item_loop.
  induction items as [|[k' v'] items IH]; intros Hk p; simpl; [reflexivity|].
  unfold Dict.mem in Hk. simpl in Hk.
  destruct (String.eqb_spec k k') as [Heq|Hne]; [discriminate|].
  rewrite IH.
  - apply other. congruence.
  - exact Hk.
Qed.

Hypothesis same : forall v p, view (f k v p) = Some (w v).

Lemma item_loop_get items v :
  Dict.ok items = true -> Dict.get k items = Some v ->
  forall p, view (item_loop f items p) = Some (w v).
Proof.
  induction items as [|[k' v'] items IH]; intros Hok Hget p;
    simpl in Hok, Hget |- *; [discriminate|].
  apply andb_true_iff in Hok. destruct Hok as [Hk' Hok].
  destruct (String.eqb_spec k k') as [Heq|Hne].
  - injection Hget as Hv. rewrite <- Heq in Hk' |- *. rewrite Hv.
    fold (item_loop f items (f k v p)).
    rewrite item_loop_other; [apply same|].
    now apply negb_true_iff in Hk'.
  - apply IH; assumption.
Qed.

End ItemLoops.

(** * The merge pass *)

Section MergePass.

Implicit Types (p : Parser) (k : string) (v t : pyobj) (c : pyclass).

Lemma annotation_loop_values items p :
  values (item_loop collect_annotation items p) = values p.
Proof.
  revert p. induction items as [|[k v] items IH]; intros p; simpl;
    [reflexivity|].
  rewrite IH. apply collect_annotation_values.
Qed.

Lemma value_loop_types_get items k t :
  forall p, Dict.get k (types p) = Some t ->
  Dict.get k (types (item_loop collect_value items p)) = Some t.
Proof.
  induction items as [|[k' v'] items IH]; intros p H; simpl; [exact H|].
  apply IH. now apply collect_value_types_get.
Qed.

Lemma collect_class_unfold c p :
  collect_class c p =
  item_loop collect_value (class_dict c)
    (item_loop collect_annotation (class_annotations c) p).
Proof. reflexivity. Qed.

Lemma collect_class_types_declared c k t p :
  is_valid k = true ->
  Dict.ok (class_annotations c) = true ->
  Dict.get k (class_annotations c) = Some t ->
  Dict.get k (types (collect_class c p)) = Some t.
Proof.
  intros Hk Hok Hget. rewrite collect_class_unfold.
  apply value_loop_types_get.
  apply (item_loop_get collect_annotation
           (fun p => Dict.get k (types p)) (fun t => t) k); auto.
  - intros k' v p0 Hne. now apply collect_annotation_types_other.
  - intros v p0. now apply collect_annotation_types_same.
Qed.

Lemma collect_class_types_kept c k t p :
  Dict.get k (types p) = Some t ->
  Dict.mem k (class_annotations c) = false ->
  Dict.get k (types (collect_class c p)) = Some t.
Proof.
  intros Hget Hmem. rewrite collect_class_unfold.
  apply value_loop_types_get.
  rewrite (item_loop_other collect_annotation
             (fun p => Dict.get k (types p)) k); auto.
  intros k' v p0 Hne. now apply collect_annotation_types_other.
Qed.

Lemma collect_classes_types_kept classes k t :
  (forall c, In c classes -> Dict.mem k (class_annotations c) = false) ->
  forall p, Dict.get k (types p) = Some t ->
  Dict.get k (types (collect_classes classes p)) = Some t.
Proof.
  unfold collect_classes.
  induction classes as [|c classes IH]; intros Hno p H; simpl; [exact H|].
  apply IH.
  - intros c' Hc'. apply Hno. now right.
  - apply collect_class_types_kept; [exact H|]. apply Hno. now left.
Qed.

Lemma collect_class_values_assigned c k v p :
  is_valid k = true ->
  Dict.ok (class_dict c) = true ->
  Dict.get k (class_dict c) = Some v ->
  Dict.get k (values (collect_class c p)) = Some v.
Proof.
  intros Hk Hok Hget. rewrite collect_class_unfold.
  apply (item_loop_get collect_value
           (fun p => Dict.get k (values p)) (fun v => v) k); auto.
  - intros k' v0 p0 Hne. now apply collect_value_values_other.
  - intros v0 p0. now apply collect_value_values_same.
Qed.

Lemma collect_class_values_kept c k p :
  Dict.mem k (class_dict c) = false ->
  Dict.get k (values (collect_class c p)) = Dict.get k (values p).
Proof.
  intros Hmem. rewrite collect_class_unfold.
  rewrite (item_loop_other collect_value
             (fun p => Dict.get k (values p)) k); auto.
  - now rewrite annotation_loop_values.
  - intros k' v p0 Hne. now apply collect_value_values_other.
Qed.

Lemma collect_classes_values_kept classes k :
  (forall c, In c classes -> Dict.mem k (class_dict c) = false) ->
  forall p,
  Dict.get k (values (collect_classes classes p)) = Dict.get k (values p).
Proof.
  unfold collect_classes.
  induction classes as [|c classes IH]; intros Hno p; simpl; [reflexivity|].
  rewrite IH.
  - apply collect_class_values_kept. apply Hno. now left.
  - intros c' Hc'. apply Hno. now right.
Qed.

Lemma collect_classes_app pre post p :
  collect_classes (pre ++ post) p =
  collect_classes post (collect_classes pre p).
Proof. apply fold_left_app. Qed.

Lemma item_loop_invariant (f : string -> pyobj -> Parser -> Parser)
      (P : Parser -> Prop) :
  (forall k v p, P p -> P (f k v p)) ->
  forall items p, P p -> P (item_loop f items p).
Proof.
  intros Hf. induction items as [|[k v] items IH]; intros p Hp; simpl;
    [exact Hp|].
  apply IH. now apply Hf.
Qed.

Lemma collect_class_types_valid c p :
  types_valid p -> types_valid (collect_class c p).
Proof.
  intros H. rewrite collect_class_unfold.
  apply item_loop_invariant; [intros; now apply collect_value_types_valid|].
  apply item_loop_invariant; [intros; now apply collect_annotation_types_valid|].
  exact H.
Qed.

Lemma collect_class_values_valid c p :
  values_valid p -> values_valid (collect_class c p).
Proof.
  intros H. rewrite collect_class_unfold.
  apply item_loop_invariant; [intros; now apply collect_value_values_valid|].
  unfold values_valid. now rewrite annotation_loop_values.
Qed.

Lemma collect_classes_valid classes :
  forall p, types_valid p /\ values_valid p ->
  types_valid (collect_classes classes p) /\
  values_valid (collect_classes classes p).
Proof.
  unfold collect_classes.
  induction classes as [|c classes IH]; intros p [Ht Hv]; simpl; [now split|].
  apply IH. split.
  - now apply collect_class_types_valid.
  - now apply collect_class_values_valid.
Qed.

(** Steps 3 to 5 leave [types] as the class pass built it. *)

Lemma collect_calculators_frame kc p p' :
  collect_calculators kc p = Ok p' ->
  types p' = types p /\ values p' = values p.
Proof.
  destruct kc as [k calcs]. unfold collect_calculators.
  destruct (Dict.mem k (types p)); [|discriminate].
  intros [= <-]. revert p.
  induction calcs as [|f calcs IH]; intros p; simpl; [now split|].
  destruct (IH (collect_calculator k f p)) as [-> ->].
  now rewrite collect_calculator_types, collect_calculator_values.
Qed.

Lemma collect_class_calculators_frame c p p' :
  collect_class_calculators c p = Ok p' ->
  types p' = types p /\ values p' = values p.
Proof.
  unfold collect_class_calculators.
  destruct (class_calculators c) as [table|]; [|now intros [= <-]].
  apply (for_each_preserves collect_calculators
           (fun s => types s = types p /\ values s = values p)); [|now split].
  intros kc s s' _ [Ht Hv] H.
  apply collect_calculators_frame in H. destruct H as [-> ->]. now split.
Qed.

Lemma collect_instance_value_types kv p p' :
  collect_instance_value kv p = Ok p' -> types p' = types p.
Proof.
  destruct kv as [k v]. unfold collect_instance_value.
  destruct (Dict.mem k (types p)) eqn:E; [|discriminate].
  intros [= <-]. now apply collect_value_types_known.
Qed.

Lemma collect_override_value_types kv p p' :
  collect_override_value kv p = Ok p' -> types p' = types p.
Proof.
  destruct kv as [k v]. unfold collect_override_value.
  destruct (Dict.mem k (types p)) eqn:E; [|discriminate].
  intros [= <-]. now apply collect_value_types_known.
Qed.

Lemma merge_inv configs overrides p :
  merge configs overrides = Ok p ->
  exists p1 p2,
    for_each collect_class_calculators
      (get_base_classes (configs_class configs))
      (collect_classes (get_base_classes (configs_class configs))
         empty_parser) = Ok p1 /\
    for_each collect_instance_value (configs_dict configs) p1 = Ok p2 /\
    match overrides with
    | Some vals => for_each collect_override_value vals p2 = Ok p
    | None => p2 = p
    end.
Proof.
  unfold merge, Dict.items. intros H.
  destruct (for_each collect_class_calculators _ _) as [p1|e];
    simpl in H; [|discriminate].
  destruct (for_each collect_instance_value _ p1) as [p2|e] eqn:E2;
    simpl in H; [|discriminate].
  exists p1, p2. split; [reflexivity|]. split; [exact E2|].
  destruct overrides; [exact H|]. now injection H.
Qed.

Lemma class_calculators_loop_types classes p p' :
  for_each collect_class_calculators classes p = Ok p' ->
  types p' = types p /\ values p' = values p.
Proof.
  apply (for_each_preserves collect_class_calculators
           (fun s => types s = types p /\ values s = values p)); [|now split].
  intros c s s' _ [Ht Hv] H.
  apply collect_class_calculators_frame in H. destruct H as [-> ->].
  now split.
Qed.

Lemma instance_loop_types items p p' :
  for_each collect_instance_value items p = Ok p' -> types p' = types p.
Proof.
  apply (for_each_preserves collect_instance_value
           (fun s => types s = types p)); [|reflexivity].
  intros kv s s' _ Ht H.
  apply collect_instance_value_types in H. congruence.
Qed.

Lemma override_loop_types items p p' :
  for_each collect_override_value items p = Ok p' -> types p' = types p.
Proof.
  apply (for_each_preserves collect_override_value
           (fun s => types s = types p)); [|reflexivity].
  intros kv s s' _ Ht H.
  apply collect_override_value_types in H. congruence.
Qed.

Lemma merge_types configs overrides p :
  merge configs overrides = Ok p ->
  types p =
  types (collect_classes (get_base_classes (configs_class configs))
           empty_parser).
Proof.
  intros H. apply merge_inv in H. destruct H as [p1 [p2 [H1 [H2 H3]]]].
  apply class_calculators_loop_types in H1. destruct H1 as [H1 _].
  apply instance_loop_types in H2.
  destruct overrides as [vals|].
  - apply override_loop_types in H3. congruence.
  - subst p2. congruence.
Qed.

End MergePass.

(** * The missing-value pass *)

Section MissingValues.

Implicit Types (p : Parser) (k : string) (v t : pyobj).

Lemma has_value_false_mem k p :
  has_value k p = false -> Dict.mem k (values p) = true ->
  Dict.get k (values p) = Some PNone.
Proof.
  unfold has_value, Dict.mem.
  destruct (Dict.get k (values p)) as [[]|]; simpl; congruence.
Qed.

Lemma round_cases k p p' :
  calculate_missing_value k p = Ok p' -> round_outcome k p p'.
Proof.
  unfold calculate_missing_value.
  destruct (has_value k p) eqn:Hv; [intros [= <-]; now constructor|].
  destruct (Dict.mem k (list_appends p)) eqn:Hl;
    [intros [= <-]; now constructor 2|].
  destruct (Dict.get k (options p)) as [opts|] eqn:Ho.
  - destruct (Dict.first_key opts) as [name|] eqn:Hf; [|discriminate].
    intros [= <-]. now apply FirstOption with (opts := opts).
  - destruct (Dict.get k (types p)) as [t|] eqn:Ht; [|discriminate].
    destruct (is_plain_class t) eqn:Hc.
    + intros [= <-]. now apply ImplicitOption.
    + destruct (Dict.mem k (values p)) eqn:Hm; [|discriminate].
      intros [= <-]. apply KeepNone with (t := t); auto.
      now apply has_value_false_mem.
Qed.

(** A round changes neither [types] nor [list_appends]. *)
Lemma round_types k p p' :
  calculate_missing_value k p = Ok p' ->
  types p' = types p /\ list_appends p' = list_appends p.
Proof. intros H. apply round_cases in H. destruct H; now split. Qed.

(** A round for another name, or for a name that has its value, leaves
    the entries of [k] alone. *)
Lemma round_frame k k' p p' :
  k' <> k \/ has_value k p = true ->
  calculate_missing_value k' p = Ok p' ->
  Dict.get k (values p') = Dict.get k (values p) /\
  Dict.get k (options p') = Dict.get k (options p).
Proof.
  intros Hk H. apply round_cases in H.
  assert (Hne : k' = k -> has_value k' p = false -> False).
  { intros -> Hf. destruct Hk as [Hk|Hk]; congruence. }
  destruct H; simpl; try (now split).
  - rewrite get_set_other; [now split|]. intros ->. now apply Hne.
  - rewrite !get_set_other; [now split| |]; intros ->; now apply Hne.
Qed.

Lemma has_value_get k p p' :
  Dict.get k (values p') = Dict.get k (values p) ->
  has_value k p' = has_value k p.
Proof. unfold has_value. now intros ->. Qed.

Lemma pass_types p p' :
  calculate_missing_values p = Ok p' ->
  types p' = types p /\ list_appends p' = list_appends p.
Proof.
  unfold calculate_missing_values.
  apply (for_each_preserves calculate_missing_value
           (fun s => types s = types p /\ list_appends s = list_appends p));
    [|now split].
  intros k s s' _ [Ht Hl] H. apply round_types in H.
  destruct H as [-> ->]. now split.
Qed.

(** A name with a value keeps it through any number of rounds. *)
Lemma rounds_keep_value keys k v :
  is_not_none v = true ->
  forall p p', Dict.get k (values p) = Some v ->
  for_each calculate_missing_value keys p = Ok p' ->
  Dict.get k (values p') = Some v.
Proof.
  intros Hv. apply for_each_preserves.
  intros k' s s' _ Hs H.
  apply (@round_frame k) in H; [destruct H; congruence|].
  right. unfold has_value. now rewrite Hs.
Qed.

End MissingValues.

(** * The claims *)

(** Under single inheritance the collected sequence is the chain of
    bases, most ancestral class first. *)
Lemma chain_walk_bounded n :
  forall c, class_size c < n -> single_inheritance c = true -> c <> Object ->
  c :: walk_levels [] [c] = chain c.
Proof.
  induction n as [|n IH]; intros c Hn Hs Hc; [lia|].
  destruct c as [|name bs a d t]; [congruence|].
  rewrite walk_levels_step.
  destruct bs as [|b [|b' bs']]; simpl in Hs; [| |discriminate].
  - unfold next_level, superclasses. simpl. now rewrite walk_levels_nil.
  - destruct b as [|name' bs' a' d' t'].
    + unfold next_level, superclasses. simpl. now rewrite walk_levels_nil.
    + unfold next_level, superclasses. simpl app.
      change (chain (Class name [Class name' bs' a' d' t'] a d t))
        with (Class name [Class name' bs' a' d' t'] a d t ::
              chain (Class name' bs' a' d' t')).
      rewrite <- (IH (Class name' bs' a' d' t')); [reflexivity| |exact Hs|].
      * simpl in Hn. simpl. lia.
      * discriminate.
Qed.

Lemma single_inheritance_classes c :
  single_inheritance c = true -> c <> Object ->
  get_base_classes c = rev (chain c).
Proof.
  intros Hs Hc. unfold get_base_classes. rewrite walk_levels_acc.
  simpl app. f_equal. apply (chain_walk_bounded (S (class_size c))); auto.
Qed.

Lemma Parser_init_types configs overrides p :
  Parser_init configs overrides = Ok p ->
  types p =
  types (collect_classes (get_base_classes (configs_class configs))
           empty_parser).
Proof.
  unfold Parser_init. intros H.
  destruct (merge configs overrides) as [p1|e] eqn:Hm; simpl in H;
    [|discriminate].
  apply pass_types in H. destruct H as [-> _].
  now apply (@merge_types configs overrides).
Qed.

(** C1, as the spec states it, fails: with [x: int] on the base class and
    [x: str] on the derived class, the parser records [str], the
    declaration of the most derived class. *)
Lemma first_declaration_is_overwritten :
  get_base_classes Examples.Derived = [Examples.Base; Examples.Derived] /\
  Dict.get "x" (class_annotations Examples.Base) = Some py_int /\
  Dict.get "x" (class_annotations Examples.Derived) = Some py_str /\
  exists p,
    Parser_init (mkConfigs Examples.Derived []) None = Ok p /\
    Dict.get "x" (types p) = Some py_str /\
    Dict.get "x" (types p) <> Some py_int.
Proof.
  split; [reflexivity|]. split; [reflexivity|]. split; [reflexivity|].
  eexists. split; [vm_compute; reflexivity|].
  split; [reflexivity|discriminate].
Qed.

(** In any sequence of classes, the annotation that the class pass
    leaves for a valid name is the one of the last class that annotates
    it. *)
Lemma last_annotation_in_sequence pre c post k t p0 :
  is_valid k = true ->
  Dict.ok (class_annotations c) = true ->
  Dict.get k (class_annotations c) = Some t ->
  (forall c', In c' post -> Dict.mem k (class_annotations c') = false) ->
  Dict.get k (types (collect_classes (pre ++ c :: post) p0)) = Some t.
Proof.
  intros Hk Hok Hget Hpost. rewrite collect_classes_app.
  change (collect_classes (c :: post) ?q)
    with (collect_classes post (collect_class c q)).
  apply collect_classes_types_kept; [exact Hpost|].
  now apply collect_class_types_declared.
Qed.

(** C1, amended: under single inheritance, for a valid name annotated on
    several classes of the hierarchy, the entry of [types] is the annotation
    of the most derived class that annotates it: [__collect_annotation]
    overwrites what an ancestor declared, and nothing after the class pass
    touches the entry. *)
Theorem last_annotation_wins concrete descendants c ancestors k t :
  single_inheritance concrete = true ->
  concrete <> Object ->
  chain concrete = descendants ++ c :: ancestors ->
  is_valid k = true ->
  Dict.ok (class_annotations c) = true ->
  Dict.get k (class_annotations c) = Some t ->
  (forall c', In c' descendants ->
              Dict.mem k (class_annotations c') = false) ->
  Dict.get k
    (types (collect_classes (get_base_classes concrete) empty_parser)) =
    Some t /\
  (forall configs overrides p,
     configs_class configs = concrete ->
     Parser_init configs overrides = Ok p ->
     Dict.get k (types p) = Some t).
Proof.
  intros Hs Hc Hchain Hk Hok Hget Hd.
  assert (Hclasses :
    Dict.get k
      (types (collect_classes (get_base_classes concrete) empty_parser)) =
    Some t).
  { rewrite single_inheritance_classes, Hchain by assumption.
    rewrite rev_app_distr. simpl. rewrite <- app_assoc. simpl.
    apply last_annotation_in_sequence; auto.
    intros c' Hc'. apply Hd. now apply in_rev. }
  split; [exact Hclasses|].
  intros configs overrides p Hcfg Hinit.
  rewrite (Parser_init_types configs overrides p Hinit), Hcfg.
  exact Hclasses.
Qed.

Lemma last_annotation_wins_witness :
  chain Examples.Derived = [] ++ Examples.Derived :: [Examples.Base] /\
  Dict.get "x" (class_annotations Examples.Base) = Some py_int /\
  Dict.get "x" (class_annotations Examples.Derived) = Some py_str /\
  Dict.get "x"
    (types (collect_classes (get_base_classes Examples.Derived)
              empty_parser)) = Some py_str.
Proof.
  split; [reflexivity|]. split; [reflexivity|]. split; [reflexivity|].
  apply (last_annotation_wins Examples.Derived [] Examples.Derived
           [Examples.Base] "x" py_str).
  - reflexivity.
  - discriminate.
  - reflexivity.
  - reflexivity.
  - reflexivity.
  - reflexivity.
  - intros c' [].
Defined.

(** ** Keys that are not in [types] *)

Lemma class_pass_valid classes :
  types_valid (collect_classes classes empty_parser) /\
  values_valid (collect_classes classes empty_parser).
Proof.
  apply collect_classes_valid. split; intros k; discriminate.
Qed.

Lemma invalid_not_declared classes k :
  is_valid k = false ->
  Dict.mem k (types (collect_classes classes empty_parser)) = false /\
  Dict.mem k (values (collect_classes classes empty_parser)) = false.
Proof.
  intros Hk. destruct (class_pass_valid classes) as [Ht Hv]. split.
  - destruct (Dict.mem k (types _)) eqn:E; [|reflexivity].
    apply Ht in E. congruence.
  - destruct (Dict.mem k (values _)) eqn:E; [|reflexivity].
    apply Hv in E. congruence.
Qed.

Lemma collect_calculators_error kc p e :
  collect_calculators kc p = Err e -> is_assertion_error e = true.
Proof.
  destruct kc as [k calcs]. unfold collect_calculators.
  destruct (Dict.mem k (types p)); [discriminate|]. now intros [= <-].
Qed.

Lemma collect_class_calculators_error c p e :
  collect_class_calculators c p = Err e -> is_assertion_error e = true.
Proof.
  unfold collect_class_calculators.
  destruct (class_calculators c) as [table|]; [|discriminate].
  apply (for_each_error collect_calculators
           (fun e => is_assertion_error e = true)).
  intros kc s e' _. apply collect_calculators_error.
Qed.

Lemma collect_instance_value_error kv p e :
  collect_instance_value kv p = Err e -> is_assertion_error e = true.
Proof.
  destruct kv as [k v]. unfold collect_instance_value.
  destruct (Dict.mem k (types p)); [discriminate|]. now intros [= <-].
Qed.

Lemma collect_override_value_error kv p e :
  collect_override_value kv p = Err e -> is_assertion_error e = true.
Proof.
  destruct kv as [k v]. unfold collect_override_value.
  destruct (Dict.mem k (types p)); [discriminate|]. now intros [= <-].
Qed.

Lemma instance_loop_raises items k v p :
  In (k, v) items -> Dict.mem k (types p) = false ->
  exists e, for_each collect_instance_value items p = Err e /\
            is_assertion_error e = true.
Proof.
  intros Hin Hk.
  apply (@for_each_raises _ _ collect_instance_value
           (fun s => types s = types p)
           (fun e => is_assertion_error e = true) items (k, v) Hin);
    [| | |reflexivity].
  - intros kv s s' _ Hs H. apply collect_instance_value_types in H. congruence.
  - intros kv s e _ _. apply collect_instance_value_error.
  - intros s Hs. exists (UnknownInstanceAttribute k).
    unfold collect_instance_value. now rewrite Hs, Hk.
Qed.

Lemma override_loop_raises items k v p :
  In (k, v) items -> Dict.mem k (types p) = false ->
  exists e, for_each collect_override_value items p = Err e /\
            is_assertion_error e = true.
Proof.
  intros Hin Hk.
  apply (@for_each_raises _ _ collect_override_value
           (fun s => types s = types p)
           (fun e => is_assertion_error e = true) items (k, v) Hin);
    [| | |reflexivity].
  - intros kv s s' _ Hs H. apply collect_override_value_types in H. congruence.
  - intros kv s e _ _. apply collect_override_value_error.
  - intros s Hs. exists (UnknownOverride k).
    unfold collect_override_value. now rewrite Hs, Hk.
Qed.

Lemma Parser_init_merge_error configs overrides e :
  merge configs overrides = Err e -> Parser_init configs overrides = Err e.
Proof. unfold Parser_init. now intros ->. Qed.

(** An instance attribute or an override whose name the class pass did not
    put into [types] makes the merge raise. *)
Lemma merge_raises_on_unknown_key configs overrides k v :
  Dict.mem k
    (types (collect_classes (get_base_classes (configs_class configs))
              empty_parser)) = false ->
  In (k, v) (configs_dict configs) \/
  (exists vals, overrides = Some vals /\ In (k, v) vals) ->
  exists e, merge configs overrides = Err e /\ is_assertion_error e = true.
Proof.
  intros Hk Hin. unfold merge, Dict.items.
  destruct (for_each collect_class_calculators _ _) as [p1|e] eqn:E1; simpl.
  2:{ exists e. split; [reflexivity|]. revert E1.
      apply (for_each_error collect_class_calculators
               (fun e => is_assertion_error e = true)).
      intros c s e' _. apply collect_class_calculators_error. }
  apply class_calculators_loop_types in E1. destruct E1 as [Ht1 _].
  rewrite <- Ht1 in Hk.
  destruct Hin as [Hin|[vals [-> Hin]]].
  - destruct (instance_loop_raises _ _ _ _ Hin Hk) as [e [-> He]]. simpl.
    now exists e.
  - destruct (for_each collect_instance_value _ p1) as [p2|e] eqn:E2; simpl.
    + apply instance_loop_types in E2. rewrite <- E2 in Hk.
      apply (override_loop_raises _ _ _ _ Hin Hk).
    + exists e. split; [reflexivity|]. revert E2.
      apply (for_each_error collect_instance_value
               (fun e => is_assertion_error e = true)).
      intros kv s e' _. apply collect_instance_value_error.
Qed.

Lemma In_keys_item {A} k (d : odict A) :
  In k (Dict.keys d) -> exists v, In (k, v) d.
Proof.
  unfold Dict.keys. intros H. apply in_map_iff in H.
  destruct H as [[k' v] [Hk Hin]]. simpl in Hk. subst k'. now exists v.
Qed.

(** ** Registration of calculators *)

Lemma calculators_loop_appends k calcs :
  forall p,
  get_or k (list_appends
              (fold_left (fun p f => collect_calculator k f p) calcs p)) [] =
  get_or k (list_appends p) [] ++ filter is_append calcs.
Proof.
  induction calcs as [|f calcs IH]; intros p; simpl.
  - now rewrite app_nil_r.
  - rewrite IH. unfold collect_calculator.
    destruct (is_append f); simpl; [|reflexivity].
    unfold get_or at 1. rewrite get_set_same, <- app_assoc. reflexivity.
Qed.

Lemma calculators_loop_options k calcs :
  forall p,
  get_or k (options
              (fold_left (fun p f => collect_calculator k f p) calcs p)) [] =
  fold_left (fun opts f => Dict.set (option_name f) f opts)
    (filter (fun f => negb (is_append f)) calcs) (get_or k (options p) []).
Proof.
  induction calcs as [|f calcs IH]; intros p; simpl; [reflexivity|].
  rewrite IH. unfold collect_calculator.
  destruct (is_append f); simpl; [reflexivity|].
  unfold get_or at 1. now rewrite get_set_same.
Qed.

Lemma class_calculators_raise classes c table k calcs p :
  In c classes -> class_calculators c = Some table ->
  In (k, calcs) table -> Dict.mem k (types p) = false ->
  exists e, for_each collect_class_calculators classes p = Err e /\
            is_assertion_error e = true.
Proof.
  intros Hc Htable Hk Hmem.
  apply (@for_each_raises _ _ collect_class_calculators
           (fun s => types s = types p)
           (fun e => is_assertion_error e = true) classes c Hc);
    [| | |reflexivity].
  - intros b s s' _ Hs H. apply collect_class_calculators_frame in H.
    destruct H. congruence.
  - intros b s e _ _. apply collect_class_calculators_error.
  - intros s Hs. unfold collect_class_calculators. rewrite Htable.
    destruct (@for_each_raises _ _ collect_calculators
                (fun s' => types s' = types p) (fun _ => True)
                table (k, calcs) Hk) with (s := s) as [e [He _]]; auto.
    + intros b t t' _ Ht H. apply collect_calculators_frame in H.
      destruct H. congruence.
    + intros t Ht. exists (UnknownCalculatorTarget k).
      unfold collect_calculators. now rewrite Ht, Hmem.
    + now exists e.
Qed.

(** C8: a calculator table entry for a name that is not a key of [types]
    makes registration raise the declaration error, and with it the whole
    constructor; for a name that is a key, registration succeeds, the
    calculators with the append flag going to the end of the name's list in
    [list_appends], in order, and the others into the name's ordered option
    table under their option names. *)
Theorem calculator_registration k calcs p :
  (Dict.mem k (types p) = false ->
   collect_calculators (k, calcs) p = Err (UnknownCalculatorTarget k)) /\
  (forall configs overrides c table,
     In c (get_base_classes (configs_class configs)) ->
     class_calculators c = Some table -> In (k, calcs) table ->
     Dict.mem k
       (types (collect_classes (get_base_classes (configs_class configs))
                 empty_parser)) = false ->
     exists e, Parser_init configs overrides = Err e /\
               is_assertion_error e = true) /\
  (Dict.mem k (types p) = true ->
   exists p',
     collect_calculators (k, calcs) p = Ok p' /\
     types p' = types p /\ values p' = values p /\
     get_or k (list_appends p') [] =
       get_or k (list_appends p) [] ++ filter is_append calcs /\
     get_or k (options p') [] =
       fold_left (fun opts f => Dict.set (option_name f) f opts)
         (filter (fun f => negb (is_append f)) calcs)
         (get_or k (options p) [])) /\
  (forall f,
     is_append f = true ->
     Dict.get k (list_appends (collect_calculator k f p)) =
       Some (get_or k (list_appends p) [] ++ [f]) /\
     options (collect_calculator k f p) = options p) /\
  (forall f,
     is_append f = false ->
     Dict.get k (options (collect_calculator k f p)) =
       Some (Dict.set (option_name f) f (get_or k (options p) [])) /\
     list_appends (collect_calculator k f p) = list_appends p).
Proof.
  split; [|split; [|split; [|split]]].
  - intros H. unfold collect_calculators. now rewrite H.
  - intros configs overrides c table Hc Htable Hk Hmem.
    destruct (@class_calculators_raise _ c table k calcs _ Hc Htable Hk Hmem)
      as [e [He Ha]].
    exists e. split; [|exact Ha].
    apply Parser_init_merge_error. unfold merge. now rewrite He.
  - intros H. eexists. split; [unfold collect_calculators; now rewrite H|].
    destruct (@collect_calculators_frame (k, calcs) p
                (fold_left (fun p f => collect_calculator k f p) calcs p))
      as [Ht Hv]; [unfold collect_calculators; now rewrite H|].
    split; [exact Ht|]. split; [exact Hv|]. split.
    + apply calculators_loop_appends.
    + apply calculators_loop_options.
  - intros f Hf. unfold collect_calculator. rewrite Hf. simpl.
    split; [apply get_set_same|reflexivity].
  - intros f Hf. unfold collect_calculator. rewrite Hf. simpl.
    split; [apply get_set_same|reflexivity].
Qed.

Lemma calculator_registration_witness :
  Dict.mem "threshold" (types empty_parser) = false /\
  collect_calculators ("threshold", [Examples.fast]) empty_parser =
    Err (UnknownCalculatorTarget "threshold").
Proof.
  split; [reflexivity|].
  apply (calculator_registration "threshold" [Examples.fast] empty_parser).
  reflexivity.
Defined.

(** ** Instance attributes and overrides *)

(** C10: a key of [configs.__dict__] or of the override mapping that is
    not a key of [types] when the merge reaches it makes the constructor
    raise an assertion error; [types] is then as the class pass left it.
    This covers every invalid name, which never is a key of [types]: the
    presence assertion comes before the validity filter of
    [__collect_value]. *)
Theorem unknown_key_aborts configs overrides k :
  is_valid k = false \/
  Dict.mem k
    (types (collect_classes (get_base_classes (configs_class configs))
              empty_parser)) = false ->
  In k (Dict.keys (configs_dict configs)) \/
  (exists vals, overrides = Some vals /\ In k (Dict.keys vals)) ->
  (exists e, Parser_init configs overrides = Err e /\
             is_assertion_error e = true) /\
  (forall v p,
     Dict.mem k (types p) = false ->
     collect_instance_value (k, v) p = Err (UnknownInstanceAttribute k) /\
     collect_override_value (k, v) p = Err (UnknownOverride k)).
Proof.
  intros Hk Hin. split.
  - assert (Hmem : Dict.mem k
      (types (collect_classes (get_base_classes (configs_class configs))
                empty_parser)) = false).
    { destruct Hk as [Hk|Hk]; [|exact Hk]. now apply invalid_not_declared. }
    assert (Hitem : exists v,
      In (k, v) (configs_dict configs) \/
      (exists vals, overrides = Some vals /\ In (k, v) vals)).
    { destruct Hin as [Hin|[vals [-> Hin]]]; apply In_keys_item in Hin;
        destruct Hin as [v Hv]; exists v; [now left|right; now exists vals]. }
    destruct Hitem as [v Hv].
    destruct (@merge_raises_on_unknown_key configs overrides k v Hmem Hv)
      as [e [He Ha]].
    exists e. split; [now apply Parser_init_merge_error|exact Ha].
  - intros v p Hmem. unfold collect_instance_value, collect_override_value.
    now rewrite Hmem.
Qed.

Lemma unknown_key_aborts_witness :
  is_valid "_hidden" = false /\
  exists e,
    Parser_init (mkConfigs Examples.Base [("_hidden", PInt 1)]) None = Err e /\
    is_assertion_error e = true.
Proof.
  split; [reflexivity|].
  apply (@unknown_key_aborts
           (mkConfigs Examples.Base [("_hidden", PInt 1)]) None "_hidden").
  - left. reflexivity.
  - left. simpl. left. reflexivity.
Defined.

(** C3, as the spec states it, fails for steps 4 and 5: an instance
    attribute or an override with an invalid name is not skipped, the
    constructor raises. *)
Lemma invalid_name_is_not_skipped :
  is_valid "_hidden" = false /\
  Parser_init (mkConfigs Examples.Base [("_hidden", PInt 1)]) None =
    Err (UnknownInstanceAttribute "_hidden") /\
  is_valid "list" = false /\
  Parser_init (mkConfigs Examples.Base []) (Some [("list", PInt 1)]) =
    Err (UnknownOverride "list").
Proof.
  split; [reflexivity|]. split; [vm_compute; reflexivity|].
  split; [reflexivity|vm_compute; reflexivity].
Qed.

(** C3, amended: for a name that starts with the private prefix or is a
    reserved word, [__collect_value] writes nothing, so the class-level
    pass (step 2) skips it silently and leaves the name out of [values]
    and [types]; in steps 4 and 5 the write is never reached, because the
    name is not a key of [types] and the assertion before it fails. *)
Theorem invalid_name_write k v :
  is_valid k = false ->
  (forall p, collect_value k v p = p) /\
  (forall classes,
     Dict.mem k (values (collect_classes classes empty_parser)) = false /\
     Dict.mem k (types (collect_classes classes empty_parser)) = false) /\
  (forall p,
     types_valid p ->
     collect_instance_value (k, v) p = Err (UnknownInstanceAttribute k) /\
     collect_override_value (k, v) p = Err (UnknownOverride k)) /\
  (forall configs overrides,
     In (k, v) (configs_dict configs) \/
     (exists vals, overrides = Some vals /\ In (k, v) vals) ->
     exists e, Parser_init configs overrides = Err e /\
               is_assertion_error e = true).
Proof.
  intros Hk. split; [|split; [|split]].
  - intros p. now apply collect_value_invalid.
  - intros classes. destruct (@invalid_not_declared classes k Hk). now split.
  - intros p Hp.
    assert (Hmem : Dict.mem k (types p) = false).
    { destruct (Dict.mem k (types p)) eqn:E; [|reflexivity].
      apply Hp in E. congruence. }
    unfold collect_instance_value, collect_override_value. now rewrite Hmem.
  - intros configs overrides Hin.
    destruct (@invalid_not_declared
                (get_base_classes (configs_class configs)) k Hk) as [Hmem _].
    destruct (@merge_raises_on_unknown_key configs overrides k v Hmem Hin)
      as [e [He Ha]].
    exists e. split; [now apply Parser_init_merge_error|exact Ha].
Qed.

Lemma invalid_name_write_witness :
  is_valid "calc" = false /\
  collect_value "calc" (PInt 1) empty_parser = empty_parser.
Proof.
  split; [reflexivity|].
  apply (@invalid_name_write "calc" (PInt 1)). reflexivity.
Defined.

(** ** Rounds of the missing-value pass *)

Lemma has_value_set_same k name p :
  has_value k (set_values (Dict.set k (PStr name)) p) = true.
Proof. unfold has_value. simpl. now rewrite get_set_same. Qed.

Lemma has_value_set_other k k' v p :
  k <> k' -> has_value k (set_values (Dict.set k' v) p) = has_value k p.
Proof. intros H. unfold has_value. simpl. now rewrite get_set_other. Qed.

Lemma settled_set_value k k' name p :
  settled k p -> settled k (set_values (Dict.set k' (PStr name)) p).
Proof.
  intros H. destruct (String.eqb_spec k k') as [->|Hne].
  - left. apply has_value_set_same.
  - destruct H as [H|[H|[H|[H1 H2]]]].
    + left. now rewrite has_value_set_other.
    + right. left. exact H.
    + right. right. left. exact H.
    + right. right. right. split; [|exact H2].
      simpl. now rewrite get_set_other.
Qed.

Lemma settled_set_option k k' opts p :
  settled k p -> settled k (set_options (Dict.set k' opts) p).
Proof.
  intros [H|[H|[H|H]]].
  - left. exact H.
  - right. left. simpl. now apply mem_set_true.
  - right. right. left. exact H.
  - right. right. right. exact H.
Qed.

Lemma round_keeps_settled k k' p p' :
  settled k p -> calculate_missing_value k' p = Ok p' -> settled k p'.
Proof.
  intros Hs H. apply round_cases in H.
  destruct H; auto using settled_set_value, settled_set_option.
Qed.

Lemma round_settles k p p' :
  calculate_missing_value k p = Ok p' -> settled k p'.
Proof.
  intros H. apply round_cases in H. destruct H.
  - now left.
  - right. right. now left.
  - left. apply has_value_set_same.
  - left. apply has_value_set_same.
  - right. right. right. split; [assumption|]. now exists t.
Qed.

Lemma round_keeps_awaiting k k' name p p' :
  k' <> k -> awaits_option k name p ->
  calculate_missing_value k' p = Ok p' -> awaits_option k name p'.
Proof.
  intros Hne [Hv [Hl Ho]] H.
  destruct (round_types _ _ _ H) as [_ Hla].
  apply (@round_frame k) in H; [|now left]. destruct H as [Hvals Hopts].
  unfold awaits_option.
  rewrite (has_value_get _ _ _ Hvals), Hla, Hopts. auto.
Qed.

(** A round for [k] itself, for a bare name. *)
Lemma round_bare k t p :
  bare k t p ->
  calculate_missing_value k p =
  if is_plain_class t then
    Ok (set_values (Dict.set k (PStr k))
          (set_options (Dict.set k [(k, implicit_option k t)]) p))
  else if Dict.mem k (values p) then Ok p
  else Err (CannotCompute k).
Proof.
  intros [Ht [Hv [Ho Hl]]]. unfold calculate_missing_value.
  apply mem_false_get in Ho. now rewrite Hv, Hl, Ho, Ht.
Qed.

Lemma round_keeps_bare k k' t p p' :
  k' <> k -> bare k t p ->
  calculate_missing_value k' p = Ok p' -> bare k t p'.
Proof.
  intros Hne [Ht [Hv [Ho Hl]]] H.
  destruct (round_types _ _ _ H) as [Hty Hla].
  apply (@round_frame k) in H; [|now left]. destruct H as [Hvals Hopts].
  unfold bare, Dict.mem.
  rewrite (has_value_get _ _ _ Hvals), Hla, Hopts, Hty. auto.
Qed.

Lemma round_keeps_values_mem k k' p p' :
  k' <> k -> calculate_missing_value k' p = Ok p' ->
  Dict.mem k (values p') = Dict.mem k (values p).
Proof.
  intros Hne H. apply (@round_frame k) in H; [|now left].
  destruct H as [Hvals _]. unfold Dict.mem. now rewrite Hvals.
Qed.

Lemma round_keeps_instantiated k k' t p p' :
  instantiated k t p ->
  calculate_missing_value k' p = Ok p' -> instantiated k t p'.
Proof.
  intros [Hv Ho] H. apply (@round_frame k) in H.
  - destruct H as [Hvals Hopts]. unfold instantiated. now rewrite Hvals, Hopts.
  - right. unfold has_value. now rewrite Hv.
Qed.

(** ** The decision table of the missing-value pass *)

(** C2, as the spec states it, fails: [int] is a plain class, so for
    [count: int] with nothing else the parser raises nothing; it builds the
    implicit option ["count"] and sets the value to that name. *)
Lemma primitive_type_gets_implicit_option :
  is_plain_class py_int = true /\
  exists m p,
    merge (mkConfigs Examples.Counter []) None = Ok m /\
    bare "count" py_int m /\ Dict.mem "count" (values m) = false /\
    Parser_init (mkConfigs Examples.Counter []) None = Ok p /\
    Dict.get "count" (values p) = Some (PStr "count") /\
    Dict.get "count" (options p) =
      Some [("count", implicit_option "count" py_int)].
Proof.
  split; [reflexivity|]. eexists. eexists.
  split; [vm_compute; reflexivity|].
  split; [repeat split|]. split; [reflexivity|].
  split; [vm_compute; reflexivity|]. split; reflexivity.
Qed.

(** C2, amended: for a name with no entry in [values], no options and no
    appenders, the pass raises "Cannot compute" exactly when the declared
    type is not a plain class (a [typing] construct such as [List[int]],
    say); when it is a plain class, [int] included, the round builds the
    implicit option named after the attribute instead. *)
Theorem unresolvable_attribute p k t :
  bare k t p ->
  Dict.mem k (values p) = false ->
  (is_plain_class t = false ->
   calculate_missing_value k p = Err (CannotCompute k) /\
   exists e, calculate_missing_values p = Err e) /\
  (is_plain_class t = true ->
   calculate_missing_value k p =
   Ok (set_values (Dict.set k (PStr k))
         (set_options (Dict.set k [(k, implicit_option k t)]) p))).
Proof.
  intros Hb Hm. split; intros Hc.
  - assert (Hround : forall s,
      bare k t s /\ Dict.mem k (values s) = false ->
      calculate_missing_value k s = Err (CannotCompute k)).
    { intros s [Hs Hms]. rewrite (round_bare _ _ _ Hs). now rewrite Hc, Hms. }
    split; [apply Hround; now split|].
    assert (Hin : In k (Dict.keys (types p))).
    { apply mem_In. destruct Hb as [Ht _]. now apply get_some_mem in Ht. }
    destruct (@for_each_raises _ _ calculate_missing_value
                (fun s => bare k t s /\ Dict.mem k (values s) = false)
                (fun _ => True) (Dict.keys (types p)) k Hin)
      with (s := p) as [e [He _]]; auto.
    + intros b s s' _ [Hs Hms] H.
      destruct (String.eqb_spec b k) as [->|Hne].
      * rewrite Hround in H by now split. discriminate.
      * split; [exact (round_keeps_bare _ _ _ _ _ Hne Hs H)|].
        rewrite (round_keeps_values_mem _ _ _ _ Hne H). exact Hms.
    + intros s Hs. exists (CannotCompute k). now apply Hround.
    + now exists e.
  - rewrite (round_bare _ _ _ Hb). now rewrite Hc.
Qed.

Lemma unresolvable_attribute_witness :
  bare "x" (PGeneric "List[int]") Examples.list_declared /\
  calculate_missing_value "x" Examples.list_declared =
    Err (CannotCompute "x").
Proof.
  split; [repeat split|].
  apply (unresolvable_attribute Examples.list_declared "x"
           (PGeneric "List[int]")).
  - repeat split.
  - reflexivity.
  - reflexivity.
Defined.

(** C4, as the spec states it, fails: for [x: List[int] = None] the pass
    ends without raising and [x] has the null value, no options and no
    appenders. *)
Lemma null_value_passes :
  exists p,
    Parser_init (mkConfigs Examples.Listy []) None = Ok p /\
    In "x" (Dict.keys (types p)) /\
    Dict.get "x" (values p) = Some PNone /\
    Dict.mem "x" (options p) = false /\
    Dict.mem "x" (list_appends p) = false.
Proof.
  eexists. split; [vm_compute; reflexivity|].
  split; [now left|]. repeat split.
Qed.

(** C4, amended: after a pass that ends without raising, every key of
    [types] has a value other than [None], or is a key of [options], or is a
    key of [list_appends], or holds a [None] that was written for it while
    its declared type is not a plain class. *)
Theorem every_name_is_settled p p' k :
  calculate_missing_values p = Ok p' ->
  In k (Dict.keys (types p')) ->
  settled k p'.
Proof.
  intros H Hin. destruct (pass_types _ _ H) as [Ht _]. rewrite Ht in Hin.
  revert H. unfold calculate_missing_values.
  apply (@for_each_establishes _ _ calculate_missing_value
           (fun _ => True) (settled k) (Dict.keys (types p)) k Hin); auto.
  - intros s s' _. apply round_settles.
  - intros b s s'. apply round_keeps_settled.
Qed.

Lemma every_name_is_settled_witness :
  exists p,
    Parser_init (mkConfigs Examples.Modes []) None = Ok p /\
    settled "mode" p.
Proof.
  eexists. split; [vm_compute; reflexivity|].
  apply (every_name_is_settled
           (register [("mode", Examples.fast); ("mode", Examples.slow)]
              Examples.modes_declared)).
  - vm_compute. reflexivity.
  - left. reflexivity.
Defined.

(** ** Options and their insertion order *)

Lemma register_frame regs :
  forall p,
  types (register regs p) = types p /\ values (register regs p) = values p.
Proof.
  unfold register.
  induction regs as [|[k f] regs IH]; intros p; simpl; [now split|].
  destruct (IH (collect_calculator k f p)) as [-> ->].
  now rewrite collect_calculator_types, collect_calculator_values.
Qed.

Lemma collect_calculator_keeps_awaiting k name k' g p :
  (k' = k -> is_append g = false) ->
  awaits_option k name p ->
  awaits_option k name (collect_calculator k' g p).
Proof.
  intros Hg [Hv [Hl [opts [Ho Hf]]]]. unfold collect_calculator.
  destruct (is_append g) eqn:Eg.
  - assert (Hne : k <> k') by (intros ->; now specialize (Hg eq_refl)).
    split; [exact Hv|]. split.
    + simpl. now rewrite mem_set_other.
    + exists opts. now split.
  - split; [exact Hv|]. split; [exact Hl|]. simpl.
    destruct (String.eqb_spec k k') as [->|Hne].
    + exists (Dict.set (option_name g) g opts). split.
      * rewrite get_set_same. unfold get_or. now rewrite Ho.
      * now apply first_key_set.
    + exists opts. split; [now rewrite get_set_other|exact Hf].
Qed.

Lemma register_keeps_awaiting k name regs :
  (forall k' g, In (k', g) regs -> k' = k -> is_append g = false) ->
  forall p, awaits_option k name p -> awaits_option k name (register regs p).
Proof.
  unfold register.
  induction regs as [|[k' g] regs IH]; intros Hregs p Hp; simpl; [exact Hp|].
  apply IH.
  - intros k0 g0 Hin. apply Hregs. now right.
  - apply collect_calculator_keeps_awaiting; [|exact Hp].
    apply Hregs. now left.
Qed.

Lemma first_registration_awaits k f p :
  has_value k p = false -> Dict.mem k (list_appends p) = false ->
  Dict.mem k (options p) = false -> is_append f = false ->
  awaits_option k (option_name f) (collect_calculator k f p).
Proof.
  intros Hv Hl Ho Hf. unfold collect_calculator. rewrite Hf.
  split; [exact Hv|]. split; [exact Hl|]. simpl.
  exists [(option_name f, f)]. split; [|reflexivity].
  rewrite get_set_same. unfold get_or.
  apply mem_false_get in Ho. now rewrite Ho.
Qed.

Lemma round_awaiting k name p :
  awaits_option k name p ->
  calculate_missing_value k p = Ok (set_values (Dict.set k (PStr name)) p).
Proof.
  intros [Hv [Hl [opts [Ho Hf]]]]. unfold calculate_missing_value.
  now rewrite Hv, Hl, Ho, Hf.
Qed.

Lemma pass_first_option k name p p' :
  In k (Dict.keys (types p)) -> awaits_option k name p ->
  calculate_missing_values p = Ok p' ->
  Dict.get k (values p') = Some (PStr name).
Proof.
  intros Hin Hp. unfold calculate_missing_values.
  assert (Hkeep : forall b s s',
    Dict.get k (values s) = Some (PStr name) ->
    calculate_missing_value b s = Ok s' ->
    Dict.get k (values s') = Some (PStr name)).
  { intros b s s' Hs H. apply (round_frame k) in H.
    - destruct H. congruence.
    - right. unfold has_value. now rewrite Hs. }
  assert (Hset : forall s,
    Dict.get k (values (set_values (Dict.set k (PStr name)) s)) =
    Some (PStr name)) by (intros s; simpl; apply get_set_same).
  apply (for_each_establishes calculate_missing_value
           (fun s => awaits_option k name s \/
                     Dict.get k (values s) = Some (PStr name))
           (fun s => Dict.get k (values s) = Some (PStr name))
           (Dict.keys (types p)) k Hin).
  - intros b s s' [Hs|Hs] H; [|right; now apply (Hkeep b s)].
    destruct (String.eqb_spec b k) as [->|Hne].
    + right. rewrite (round_awaiting _ _ _ Hs) in H. injection H as <-.
      apply Hset.
    + left. now apply (round_keeps_awaiting k b name s).
  - intros s s' [Hs|Hs] H; [|now apply (Hkeep k s)].
    rewrite (round_awaiting _ _ _ Hs) in H. injection H as <-. apply Hset.
  - exact Hkeep.
  - now left.
Qed.

(** C5: when the first calculator registered for a name that has no
    value, no appenders and no options yet is an option, then whatever
    options are registered afterwards, for this name or others, the pass
    sets the name's value to the option name of that first calculator. *)
Theorem first_option_is_default p k f regs :
  In k (Dict.keys (types p)) ->
  has_value k p = false ->
  Dict.mem k (list_appends p) = false ->
  Dict.mem k (options p) = false ->
  is_append f = false ->
  (forall k' g, In (k', g) regs -> k' = k -> is_append g = false) ->
  calculate_missing_value k (register ((k, f) :: regs) p) =
    Ok (set_values (Dict.set k (PStr (option_name f)))
          (register ((k, f) :: regs) p)) /\
  (forall p',
     calculate_missing_values (register ((k, f) :: regs) p) = Ok p' ->
     Dict.get k (values p') = Some (PStr (option_name f))).
Proof.
  intros Hin Hv Hl Ho Hf Hregs.
  assert (Hw : awaits_option k (option_name f) (register ((k, f) :: regs) p)).
  { change (register ((k, f) :: regs) p)
      with (register regs (collect_calculator k f p)).
    apply register_keeps_awaiting; [exact Hregs|].
    now apply first_registration_awaits. }
  split; [now apply round_awaiting|].
  intros p'. apply pass_first_option; [|exact Hw].
  destruct (register_frame ((k, f) :: regs) p) as [-> _]. exact Hin.
Qed.

Lemma first_option_is_default_witness :
  exists p',
    calculate_missing_values
      (register [("mode", Examples.fast); ("mode", Examples.slow)]
         Examples.modes_declared) = Ok p' /\
    Dict.get "mode" (values p') = Some (PStr "fast").
Proof.
  eexists. split; [vm_compute; reflexivity|].
  apply (first_option_is_default Examples.modes_declared "mode"
           Examples.fast [("mode", Examples.slow)]).
  - left. reflexivity.
  - reflexivity.
  - reflexivity.
  - reflexivity.
  - reflexivity.
  - intros k' g [H|[]] _. now injection H as _ <-.
  - vm_compute. reflexivity.
Defined.

(** ** Implicit options *)

Lemma instantiated_after_round k t p :
  instantiated k t
    (set_values (Dict.set k (PStr k))
       (set_options (Dict.set k [(k, implicit_option k t)]) p)).
Proof. split; simpl; apply get_set_same. Qed.

(** C6, as the spec states it, fails: [encoder: EncoderConfig] with no
    value and no options, but with an appender registered for it, is left
    as it is; no option is built and no value is set. *)
Lemma appenders_come_before_implicit_option :
  is_plain_class Examples.EncoderConfig = true /\
  exists m p,
    merge (mkConfigs Examples.Stack []) None = Ok m /\
    Dict.get "encoder" (types m) = Some Examples.EncoderConfig /\
    has_value "encoder" m = false /\
    Dict.mem "encoder" (options m) = false /\
    Parser_init (mkConfigs Examples.Stack []) None = Ok p /\
    Dict.mem "encoder" (options p) = false /\
    Dict.get "encoder" (values p) = None.
Proof.
  split; [reflexivity|]. eexists. eexists.
  split; [vm_compute; reflexivity|].
  split; [reflexivity|]. split; [reflexivity|]. split; [reflexivity|].
  split; [vm_compute; reflexivity|]. split; reflexivity.
Qed.

(** C6, amended: for a name whose declared type is a plain class and
    which has no value, no options and no appenders, the pass builds
    exactly one option, named after the attribute, puts it into [options]
    and sets the value to the attribute's name. *)
Theorem nested_type_gets_implicit_option p k t :
  bare k t p ->
  is_plain_class t = true ->
  calculate_missing_value k p =
    Ok (set_values (Dict.set k (PStr k))
          (set_options (Dict.set k [(k, implicit_option k t)]) p)) /\
  (forall p', calculate_missing_values p = Ok p' -> instantiated k t p').
Proof.
  intros Hb Hc.
  assert (Hround : forall s s',
    bare k t s -> calculate_missing_value k s = Ok s' -> instantiated k t s').
  { intros s s' Hs H. rewrite (round_bare _ _ _ Hs), Hc in H.
    injection H as <-. apply instantiated_after_round. }
  split; [rewrite (round_bare _ _ _ Hb); now rewrite Hc|].
  intros p'. unfold calculate_missing_values.
  assert (Hin : In k (Dict.keys (types p))).
  { apply mem_In. destruct Hb as [Ht _]. now apply get_some_mem in Ht. }
  apply (for_each_establishes calculate_missing_value
           (fun s => bare k t s \/ instantiated k t s)
           (instantiated k t) (Dict.keys (types p)) k Hin).
  - intros b s s' [Hs|Hs] H;
      [|right; now apply (round_keeps_instantiated k b t s)].
    destruct (String.eqb_spec b k) as [->|Hne].
    + right. now apply (Hround s).
    + left. now apply (round_keeps_bare k b t s).
  - intros s s' [Hs|Hs] H; [now apply (Hround s)|].
    now apply (round_keeps_instantiated k k t s).
  - intros b s s'. apply round_keeps_instantiated.
  - now left.
Qed.

Lemma nested_type_gets_implicit_option_witness :
  bare "encoder" Examples.EncoderConfig Examples.encoder_declared /\
  exists p,
    Parser_init (mkConfigs Examples.Model []) None = Ok p /\
    instantiated "encoder" Examples.EncoderConfig p.
Proof.
  split; [repeat split|].
  eexists. split; [vm_compute; reflexivity|].
  apply (nested_type_gets_implicit_option Examples.encoder_declared
           "encoder" Examples.EncoderConfig).
  - repeat split.
  - reflexivity.
  - vm_compute. reflexivity.
Defined.

(** ** Precedence of the writes to [values] *)

Lemma instance_loop_ok items :
  forall p p',
  for_each collect_instance_value items p = Ok p' ->
  p' = item_loop collect_value items p.
Proof.
  induction items as [|[k v] items IH]; intros p p'; simpl.
  - now intros [= <-].
  - destruct (Dict.mem k (types p)); simpl; [|discriminate]. apply IH.
Qed.

Lemma override_loop_ok items :
  forall p p',
  for_each collect_override_value items p = Ok p' ->
  p' = item_loop collect_value items p.
Proof.
  induction items as [|[k v] items IH]; intros p p'; simpl.
  - now intros [= <-].
  - destruct (Dict.mem k (types p)); simpl; [|discriminate]. apply IH.
Qed.

Lemma instance_loop_known items k v p p' :
  for_each collect_instance_value items p = Ok p' ->
  In (k, v) items -> Dict.mem k (types p) = true.
Proof.
  intros H Hin. destruct (Dict.mem k (types p)) eqn:E; [reflexivity|].
  destruct (instance_loop_raises items k v p Hin E) as [e [He _]]. congruence.
Qed.

Lemma override_loop_known items k v p p' :
  for_each collect_override_value items p = Ok p' ->
  In (k, v) items -> Dict.mem k (types p) = true.
Proof.
  intros H Hin. destruct (Dict.mem k (types p)) eqn:E; [reflexivity|].
  destruct (override_loop_raises items k v p Hin E) as [e [He _]]. congruence.
Qed.

Lemma value_loop_assigned items k v p :
  is_valid k = true -> Dict.ok items = true -> Dict.get k items = Some v ->
  Dict.get k (values (item_loop collect_value items p)) = Some v.
Proof.
  intros Hk Hok Hget.
  apply (item_loop_get collect_value
           (fun p => Dict.get k (values p)) (fun v => v) k); auto.
  - intros k' v0 p0 Hne. now apply collect_value_values_other.
  - intros v0 p0. now apply collect_value_values_same.
Qed.

Lemma value_loop_kept items k p :
  Dict.mem k items = false ->
  Dict.get k (values (item_loop collect_value items p)) =
  Dict.get k (values p).
Proof.
  intros Hmem.
  apply (item_loop_other collect_value
           (fun p => Dict.get k (values p)) k); auto.
  intros k' v p0 Hne. now apply collect_value_values_other.
Qed.

(** What the merge does to [values], once it has succeeded. *)
Lemma merge_values configs overrides p :
  merge configs overrides = Ok p ->
  let p0 := collect_classes (get_base_classes (configs_class configs))
              empty_parser in
  types_valid p0 /\
  (forall k v, In (k, v) (configs_dict configs) ->
               Dict.mem k (types p0) = true) /\
  (forall vals k v, overrides = Some vals -> In (k, v) vals ->
                    Dict.mem k (types p0) = true) /\
  exists p1,
    values p1 = values p0 /\
    p = match overrides with
        | Some vals =>
            item_loop collect_value vals
              (item_loop collect_value (configs_dict configs) p1)
        | None => item_loop collect_value (configs_dict configs) p1
        end.
Proof.
  intros H p0. apply merge_inv in H. destruct H as [p1 [p2 [H1 [H2 H3]]]].
  fold p0 in H1. apply class_calculators_loop_types in H1.
  destruct H1 as [Ht1 Hv1].
  split; [apply class_pass_valid|]. split; [|split].
  - intros k v Hin. rewrite <- Ht1.
    now apply (instance_loop_known _ k v p1 p2 H2).
  - intros vals k v -> Hin. rewrite <- Ht1.
    rewrite <- (instance_loop_types _ _ _ H2).
    now apply (override_loop_known _ k v p2 p H3).
  - exists p1. split; [exact Hv1|].
    apply instance_loop_ok in H2. subst p2.
    destruct overrides as [vals|]; [now apply override_loop_ok|now subst p].
Qed.

(** C7: the parser at the diamond [D(X, B)], [X(A)], [B(M)], [M(A)].
    [_get_base_classes] reverses the walk so that bases come before derived
    classes, but it keeps the second visit of [A], which the reversal puts
    after its subclass [M]: the value [x = 1] of the ancestor [A] replaces
    the value [x = 2] of the descendant [M]. *)
Lemma ancestor_value_can_win :
  In Examples.A (class_bases Examples.M) /\
  Dict.get "x" (class_dict Examples.A) = Some (PInt 1) /\
  Dict.get "x" (class_dict Examples.M) = Some (PInt 2) /\
  get_base_classes Examples.D =
    [Examples.A; Examples.M; Examples.A; Examples.B; Examples.X; Examples.D] /\
  exists p,
    Parser_init (mkConfigs Examples.D []) None = Ok p /\
    Dict.get "x" (values p) = Some (PInt 1) /\
    Dict.get "x" (values p) <> Some (PInt 2).
Proof.
  split; [now left|]. split; [reflexivity|]. split; [reflexivity|].
  split; [vm_compute; reflexivity|].
  eexists. split; [vm_compute; reflexivity|].
  split; [reflexivity|discriminate].
Qed.

(** The order of the writes to [values]: the last writer wins.  Among the
    classes it is the last class of the processed sequence that assigns the
    name; under single inheritance this is the most derived class that
    assigns it, so that a descendant's value replaces its ancestors'.  The
    class-level value stays when neither the instance nor the overrides have
    the name; an instance-level value replaces it, and an override replaces
    both.  The missing-value pass keeps every value other than [None]. *)
Theorem last_writer_wins k v :
  (forall pre c post p0,
     is_valid k = true ->
     Dict.ok (class_dict c) = true ->
     Dict.get k (class_dict c) = Some v ->
     (forall c', In c' post -> Dict.mem k (class_dict c') = false) ->
     Dict.get k (values (collect_classes (pre ++ c :: post) p0)) = Some v) /\
  (forall concrete descendants c ancestors,
     single_inheritance concrete = true -> concrete <> Object ->
     chain concrete = descendants ++ c :: ancestors ->
     is_valid k = true ->
     Dict.ok (class_dict c) = true ->
     Dict.get k (class_dict c) = Some v ->
     (forall c', In c' descendants -> Dict.mem k (class_dict c') = false) ->
     Dict.get k
       (values (collect_classes (get_base_classes concrete) empty_parser)) =
     Some v) /\
  (forall configs overrides p,
     merge configs overrides = Ok p ->
     Dict.mem k (configs_dict configs) = false ->
     (forall vals, overrides = Some vals -> Dict.mem k vals = false) ->
     Dict.get k (values p) =
     Dict.get k
       (values (collect_classes (get_base_classes (configs_class configs))
                  empty_parser))) /\
  (forall configs overrides p,
     merge configs overrides = Ok p ->
     Dict.ok (configs_dict configs) = true ->
     Dict.get k (configs_dict configs) = Some v ->
     (forall vals, overrides = Some vals -> Dict.mem k vals = false) ->
     Dict.get k (values p) = Some v) /\
  (forall configs vals p,
     merge configs (Some vals) = Ok p ->
     Dict.ok vals = true ->
     Dict.get k vals = Some v ->
     Dict.get k (values p) = Some v) /\
  (forall p p',
     is_not_none v = true ->
     Dict.get k (values p) = Some v ->
     calculate_missing_values p = Ok p' ->
     Dict.get k (values p') = Some v).
Proof.
  assert (Hclasses : forall pre c post p0,
     is_valid k = true ->
     Dict.ok (class_dict c) = true ->
     Dict.get k (class_dict c) = Some v ->
     (forall c', In c' post -> Dict.mem k (class_dict c') = false) ->
     Dict.get k (values (collect_classes (pre ++ c :: post) p0)) = Some v).
  { intros pre c post p0 Hk Hok Hget Hpost.
    rewrite collect_classes_app.
    change (collect_classes (c :: post) ?q)
      with (collect_classes post (collect_class c q)).
    rewrite collect_classes_values_kept by exact Hpost.
    now apply collect_class_values_assigned. }
  split; [exact Hclasses|]. split; [|split; [|split; [|split]]].
  - intros concrete descendants c ancestors Hs Hc Hchain Hk Hok Hget Hd.
    rewrite single_inheritance_classes, Hchain by assumption.
    rewrite rev_app_distr. simpl. rewrite <- app_assoc. simpl.
    apply Hclasses; auto.
    intros c' Hc'. apply Hd. now apply in_rev.
  - intros configs overrides p H Hinst Hover.
    destruct (merge_values _ _ _ H) as [_ [_ [_ [p1 [Hv1 ->]]]]].
    rewrite <- Hv1. destruct overrides as [vals|].
    + rewrite value_loop_kept by now apply Hover.
      now apply value_loop_kept.
    + now apply value_loop_kept.
  - intros configs overrides p H Hok Hget Hover.
    destruct (merge_values _ _ _ H) as [Hvalid [Hknown [_ [p1 [_ ->]]]]].
    assert (Hk : is_valid k = true).
    { apply Hvalid. apply (Hknown k v). now apply get_In. }
    destruct overrides as [vals|].
    + rewrite value_loop_kept by now apply Hover.
      now apply value_loop_assigned.
    + now apply value_loop_assigned.
  - intros configs vals p H Hok Hget.
    destruct (merge_values _ _ _ H) as [Hvalid [_ [Hknown [p1 [_ ->]]]]].
    assert (Hk : is_valid k = true).
    { apply Hvalid. apply (Hknown vals k v eq_refl). now apply get_In. }
    now apply value_loop_assigned.
  - intros p p' Hv Hget. unfold calculate_missing_values.
    now apply rounds_keep_value.
Qed.

Lemma last_writer_wins_witness :
  (exists p,
     merge (mkConfigs Examples.A [("x", PInt 7)]) (Some [("x", PInt 9)]) =
       Ok p /\
     Dict.get "x" (values p) = Some (PInt 9)) /\
  Dict.get "x"
    (values (collect_classes (get_base_classes Examples.M) empty_parser)) =
  Some (PInt 2).
Proof.
  split.
  - eexists. split; [vm_compute; reflexivity|].
    apply (proj1 (proj2 (proj2 (proj2 (proj2
             (last_writer_wins "x" (PInt 9))))))
             (mkConfigs Examples.A [("x", PInt 7)]) [("x", PInt 9)]).
    + vm_compute. reflexivity.
    + reflexivity.
    + reflexivity.
  - apply (proj1 (proj2 (last_writer_wins "x" (PInt 2)))
             Examples.M [] Examples.M [Examples.A]).
    + reflexivity.
    + discriminate.
    + reflexivity.
    + reflexivity.
    + reflexivity.
    + reflexivity.
    + intros c' [].
Defined.

(** * Further properties of the collector *)

Lemma level_step_size c level :
  level_size (next_level (c :: level)) < level_size (c :: level).
Proof. apply next_level_size. discriminate. Qed.

Lemma walk_reaches_bounded n :
  forall level, level_size level < n ->
  forall a,
  In a (level ++ walk_levels [] level) <->
  exists c, In c level /\ reaches c a.
Proof.
  induction n as [|n IH]; intros level Hn a; [lia|].
  destruct level as [|c level].
  - rewrite walk_levels_nil. simpl. split; [tauto|]. now intros [c' [[] _]].
  - rewrite walk_levels_step.
    pose proof (level_step_size c level) as Hlt.
    assert (Hnext : level_size (next_level (c :: level)) < n) by lia.
    specialize (IH _ Hnext a). rewrite in_app_iff, IH. split.
    + intros [Hin|[b [Hb Hr]]].
      * exists a. split; [exact Hin|constructor].
      * apply in_flat_map in Hb. destruct Hb as [c' [Hc' Hb]].
        apply in_superclasses in Hb. destruct Hb as [Hb Hobj].
        exists c'. split; [exact Hc'|]. now apply reaches_base with b.
    + intros [c' [Hc' Hr]]. inversion Hr as [|c0 b a0 Hb Hobj Hr']; subst.
      * now left.
      * right. exists b. split; [|exact Hr'].
        apply in_flat_map. exists c'. split; [exact Hc'|].
        apply in_superclasses. now split.
Qed.

(** The collected sequence holds exactly the concrete class and the
    classes reached from it through [__bases__], [object] apart. *)
Theorem collected_classes_are_the_ancestors class_ a :
  In a (get_base_classes class_) <-> reaches class_ a.
Proof.
  unfold get_base_classes. rewrite <- in_rev, walk_levels_acc.
  rewrite (walk_reaches_bounded (S (level_size [class_])) [class_]) by lia.
  split.
  - intros [c [[<-|[]] Hr]]. exact Hr.
  - intros Hr. exists class_. split; [now left|exact Hr].
Qed.

Lemma walk_bases_follow_bounded n :
  forall level, level_size level < n ->
  forall m1 x m2,
  level ++ walk_levels [] level = m1 ++ x :: m2 ->
  incl (superclasses x) m2.
Proof.
  induction n as [|n IH]; intros level Hn m1 x m2 Heq; [lia|].
  destruct level as [|c level].
  - rewrite walk_levels_nil in Heq. destruct m1; discriminate.
  - rewrite walk_levels_step in Heq.
    pose proof (level_step_size c level) as Hlt.
    assert (Hnext : level_size (next_level (c :: level)) < n) by lia.
    apply app_eq_app in Heq. destruct Heq as [l [[Hl Hr]|[Hl Hr]]].
    + destruct l as [|y l].
      * apply (IH _ Hnext [] x m2). exact (eq_sym Hr).
      * injection Hr as -> ->. intros b Hb. apply in_or_app. right.
        apply in_or_app. left.
        change (In b (next_level (c :: level))).
        apply in_flat_map. exists y. split; [|exact Hb].
        rewrite Hl. apply in_or_app. right. now left.
    + apply (IH _ Hnext l x m2). exact Hr.
Qed.

Lemma before_or_self_bounded l :
  (forall m1 x m2, l = m1 ++ x :: m2 -> incl (superclasses x) m1) ->
  forall b a, reaches b a ->
  forall m1 m2, l = m1 ++ b :: m2 -> In a (m1 ++ [b]).
Proof.
  intros Hl b a Hr. induction Hr as [c|c b a Hb Hobj Hr IH]; intros m1 m2 Heq.
  - apply in_or_app. right. now left.
  - apply in_or_app. left.
    assert (Hs : In b (superclasses c)) by (apply in_superclasses; now split).
    pose proof (Hl m1 c m2 Heq b Hs) as Hin.
    apply in_split in Hin. destruct Hin as [u [w ->]].
    specialize (IH u (w ++ c :: m2)).
    rewrite <- app_assoc in Heq. simpl in Heq. specialize (IH Heq).
    apply in_app_or in IH. apply in_or_app.
    destruct IH as [IH|[<-|[]]]; [now left|right; now left].
Qed.

Lemma bases_come_before class_ m1 y m2 :
  get_base_classes class_ = m1 ++ y :: m2 -> incl (superclasses y) m1.
Proof.
  intros Heq. unfold get_base_classes in Heq.
  rewrite walk_levels_acc in Heq.
  apply (f_equal (@rev pyclass)) in Heq.
  rewrite rev_involutive, rev_app_distr in Heq. simpl in Heq.
  rewrite <- app_assoc in Heq. simpl in Heq.
  intros b Hb. apply in_rev.
  apply (walk_bases_follow_bounded (S (level_size [class_])) [class_]
           ltac:(lia) (rev m2) y (rev m1) Heq b Hb).
Qed.

(** Wherever a class stands in the collected sequence, each entry of its
    [__bases__] other than [object], and so each of its proper ancestors,
    stands somewhere before it. *)
Theorem ancestors_come_before class_ l1 x l2 :
  get_base_classes class_ = l1 ++ x :: l2 ->
  (forall b, In b (class_bases x) -> b <> Object -> In b l1) /\
  (forall b a, In b (class_bases x) -> b <> Object -> reaches b a ->
               In a l1).
Proof.
  intros Heq.
  assert (Hdirect : forall b, In b (class_bases x) -> b <> Object -> In b l1).
  { intros b Hb Hobj. apply (bases_come_before class_ l1 x l2 Heq).
    apply in_superclasses. now split. }
  split; [exact Hdirect|].
  intros b a Hb Hobj Hr.
  pose proof (Hdirect b Hb Hobj) as Hin.
  apply in_split in Hin. destruct Hin as [u [w Hu]]. subst l1.
  rewrite <- app_assoc in Heq. simpl in Heq.
  pose proof (before_or_self_bounded (get_base_classes class_)
                (bases_come_before class_) b a Hr u (w ++ x :: l2) Heq) as Ha.
  apply in_app_or in Ha. apply in_or_app.
  destruct Ha as [Ha|[<-|[]]]; [now left|right; now left].
Qed.

Lemma ancestors_come_before_witness :
  get_base_classes Examples.D =
    [Examples.A; Examples.M; Examples.A] ++
    Examples.B :: [Examples.X; Examples.D] /\
  In Examples.A [Examples.A; Examples.M; Examples.A].
Proof.
  assert (Heq : get_base_classes Examples.D =
                [Examples.A; Examples.M; Examples.A] ++
                Examples.B :: [Examples.X; Examples.D])
    by (vm_compute; reflexivity).
  split; [exact Heq|].
  apply (proj2 (ancestors_come_before Examples.D _ Examples.B _ Heq)
           Examples.M Examples.A).
  - left. reflexivity.
  - discriminate.
  - apply reaches_base with Examples.A; [now left|discriminate|constructor].
Defined.

(** * Further properties of the class pass *)

Lemma mem_cons {A} k k' (v : A) d :
  Dict.mem k ((k', v) :: d) = String.eqb k k' || Dict.mem k d.
Proof. unfold Dict.mem. simpl. now destruct (String.eqb k k'). Qed.

Lemma mem_set {A} k k' (v : A) d :
  Dict.mem k (Dict.set k' v d) = String.eqb k k' || Dict.mem k d.
Proof.
  destruct (String.eqb_spec k k') as [->|Hne]; simpl.
  - apply mem_set_same.
  - now apply mem_set_other.
Qed.

Lemma collect_annotation_types_mem k k' t p :
  Dict.mem k (types (collect_annotation k' t p)) =
  Dict.mem k (types p) || (String.eqb k k' && is_valid k).
Proof.
  unfold collect_annotation.
  destruct (String.eqb_spec k k') as [->|Hne]; simpl.
  - destruct (is_valid k'); simpl.
    + rewrite mem_set_same. now rewrite orb_true_r.
    + now rewrite orb_false_r.
  - rewrite orb_false_r. destruct (is_valid k'); simpl; [|reflexivity].
    now apply mem_set_other.
Qed.

Lemma collect_value_types_mem k k' v p :
  Dict.mem k (types (collect_value k' v p)) =
  Dict.mem k (types p) || (String.eqb k k' && is_valid k).
Proof.
  unfold collect_value.
  destruct (String.eqb_spec k k') as [->|Hne]; simpl.
  - destruct (is_valid k'); simpl; [|now rewrite orb_false_r].
    destruct (Dict.mem k' (types p)) eqn:E; simpl; [now rewrite E|].
    now rewrite mem_set_same.
  - rewrite orb_false_r. destruct (is_valid k'); simpl; [|reflexivity].
    destruct (Dict.mem k' (types p)); simpl; [reflexivity|].
    now apply mem_set_other.
Qed.

Lemma collect_value_values_mem k k' v p :
  Dict.mem k (values (collect_value k' v p)) =
  Dict.mem k (values p) || (String.eqb k k' && is_valid k).
Proof.
  unfold collect_value.
  destruct (String.eqb_spec k k') as [->|Hne]; simpl.
  - destruct (is_valid k'); simpl; [|now rewrite orb_false_r].
    destruct (Dict.mem k' (types p)); simpl;
      now rewrite mem_set_same, orb_true_r.
  - rewrite orb_false_r. destruct (is_valid k'); simpl; [|reflexivity].
    destruct (Dict.mem k' (types p)); simpl; now apply mem_set_other.
Qed.

(** A loop whose body adds its own key, when valid, to the keys counted
    by [count]. *)
Lemma item_loop_mem (f : string -> pyobj -> Parser -> Parser)
      (count : string -> Parser -> bool) k :
  (forall k' v p,
     count k (f k' v p) = count k p || (String.eqb k k' && is_valid k)) ->
  forall items p,
  count k (item_loop f items p) =
  count k p || (is_valid k && Dict.mem k items).
Proof.
  intros Hf. induction items as [|[k' v] items IH]; intros p; simpl.
  - now rewrite andb_false_r, orb_false_r.
  - rewrite IH, Hf, mem_cons.
    destruct (count k p), (String.eqb k k'), (is_valid k),
      (Dict.mem k items); reflexivity.
Qed.

Lemma collect_class_types_mem c k p :
  Dict.mem k (types (collect_class c p)) =
  Dict.mem k (types p) || (is_valid k && declares c k).
Proof.
  rewrite collect_class_unfold.
  rewrite (item_loop_mem collect_value (fun k p => Dict.mem k (types p)) k)
    by (intros; apply collect_value_types_mem).
  rewrite (item_loop_mem collect_annotation
             (fun k p => Dict.mem k (types p)) k)
    by (intros; apply collect_annotation_types_mem).
  unfold declares.
  destruct (Dict.mem k (types p)), (is_valid k),
    (Dict.mem k (class_annotations c)), (Dict.mem k (class_dict c));
    reflexivity.
Qed.

Lemma collect_class_values_mem c k p :
  Dict.mem k (values (collect_class c p)) =
  Dict.mem k (values p) || (is_valid k && Dict.mem k (class_dict c)).
Proof.
  rewrite collect_class_unfold.
  rewrite (item_loop_mem collect_value (fun k p => Dict.mem k (values p)) k)
    by (intros; apply collect_value_values_mem).
  now rewrite annotation_loop_values.
Qed.

Lemma collect_classes_types_mem classes k :
  forall p,
  Dict.mem k (types (collect_classes classes p)) =
  Dict.mem k (types p) ||
  (is_valid k && existsb (fun c => declares c k) classes).
Proof.
  unfold collect_classes.
  induction classes as [|c classes IH]; intros p; simpl.
  - now rewrite andb_false_r, orb_false_r.
  - rewrite IH, collect_class_types_mem.
    destruct (Dict.mem k (types p)), (is_valid k), (declares c k); reflexivity.
Qed.

Lemma collect_classes_values_mem classes k :
  forall p,
  Dict.mem k (values (collect_classes classes p)) =
  Dict.mem k (values p) ||
  (is_valid k && existsb (fun c => Dict.mem k (class_dict c)) classes).
Proof.
  unfold collect_classes.
  induction classes as [|c classes IH]; intros p; simpl.
  - now rewrite andb_false_r, orb_false_r.
  - rewrite IH, collect_class_values_mem.
    destruct (Dict.mem k (values p)), (is_valid k),
      (Dict.mem k (class_dict c)); reflexivity.
Qed.

(** The names the parser knows after a successful construction are
    exactly the valid names that some collected class annotates or assigns;
    the names with a class-level value after the class pass are exactly the
    valid names that some collected class assigns. *)
Theorem known_names_are_the_declared_ones configs overrides p k :
  Parser_init configs overrides = Ok p ->
  Dict.mem k (types p) =
    is_valid k &&
    existsb (fun c => declares c k)
      (get_base_classes (configs_class configs)) /\
  Dict.mem k
    (values (collect_classes (get_base_classes (configs_class configs))
               empty_parser)) =
    is_valid k &&
    existsb (fun c => Dict.mem k (class_dict c))
      (get_base_classes (configs_class configs)).
Proof.
  intros H. rewrite (Parser_init_types configs overrides p H).
  now rewrite collect_classes_types_mem, collect_classes_values_mem.
Qed.

Lemma known_names_are_the_declared_ones_witness :
  exists p,
    Parser_init (mkConfigs Examples.Derived []) None = Ok p /\
    Dict.mem "x" (types p) = true /\ Dict.mem "y" (types p) = false.
Proof.
  eexists. split; [vm_compute; reflexivity|]. split.
  - rewrite (proj1 (known_names_are_the_declared_ones
                      (mkConfigs Examples.Derived []) None _ "x"
                      ltac:(vm_compute; reflexivity))).
    reflexivity.
  - rewrite (proj1 (known_names_are_the_declared_ones
                      (mkConfigs Examples.Derived []) None _ "y"
                      ltac:(vm_compute; reflexivity))).
    reflexivity.
Defined.

Lemma collect_value_types_other k k' v p :
  k' <> k ->
  Dict.get k (types (collect_value k' v p)) = Dict.get k (types p).
Proof.
  intros Hne. unfold collect_value.
  destruct (is_valid k'); simpl; [|reflexivity].
  destruct (Dict.mem k' (types p)); simpl; [reflexivity|].
  apply get_set_other. congruence.
Qed.

Lemma collect_value_types_inferred k v p :
  is_valid k = true -> Dict.mem k (types p) = false ->
  Dict.get k (types (collect_value k v p)) = Some (type_of v).
Proof.
  intros Hk Hm. unfold collect_value. rewrite Hk. simpl. rewrite Hm. simpl.
  apply get_set_same.
Qed.

Lemma value_loop_types_inferred k v items :
  is_valid k = true -> Dict.get k items = Some v ->
  forall p, Dict.mem k (types p) = false ->
  Dict.get k (types (item_loop collect_value items p)) = Some (type_of v).
Proof.
  intros Hk. induction items as [|[k' v'] items IH]; intros Hget p Hm;
    simpl in Hget |- *; [discriminate|].
  destruct (String.eqb_spec k k') as [<-|Hne].
  - injection Hget as ->. apply value_loop_types_get.
    now apply collect_value_types_inferred.
  - apply IH; [exact Hget|].
    apply mem_false_get. rewrite collect_value_types_other by congruence.
    now apply mem_false_get.
Qed.

(** For a valid name that no class annotates, the recorded type is
    inferred once, from the first class-level value in the order of the
    collected sequence: later values replace the value, not the type. *)
Theorem type_is_inferred_from_first_value pre c post k v :
  is_valid k = true ->
  (forall c', In c' (pre ++ c :: post) ->
              Dict.mem k (class_annotations c') = false) ->
  (forall c', In c' pre -> Dict.mem k (class_dict c') = false) ->
  Dict.get k (class_dict c) = Some v ->
  Dict.get k (types (collect_classes (pre ++ c :: post) empty_parser)) =
  Some (type_of v).
Proof.
  intros Hk Hann Hpre Hget. rewrite collect_classes_app.
  change (collect_classes (c :: post) ?q)
    with (collect_classes post (collect_class c q)).
  apply collect_classes_types_kept.
  { intros c' Hc'. apply Hann. apply in_or_app. right. now right. }
  rewrite collect_class_unfold.
  apply value_loop_types_inferred; [exact Hk|exact Hget|].
  rewrite (item_loop_mem collect_annotation
             (fun k p => Dict.mem k (types p)) k)
    by (intros; apply collect_annotation_types_mem).
  rewrite collect_classes_types_mem.
  assert (Hc : Dict.mem k (class_annotations c) = false).
  { apply Hann. apply in_or_app. right. now left. }
  rewrite Hc, andb_false_r, orb_false_r. simpl.
  replace (existsb (fun c0 => declares c0 k) pre) with false;
    [now rewrite andb_false_r|].
  symmetry. apply not_true_is_false. intros Hex.
  apply existsb_exists in Hex. destruct Hex as [c' [Hc' Hd]].
  unfold declares in Hd. rewrite Hpre in Hd by exact Hc'.
  rewrite Hann in Hd; [discriminate|]. apply in_or_app. now left.
Qed.

Lemma type_is_inferred_from_first_value_witness :
  Dict.get "x"
    (types (collect_classes ([] ++ Examples.A :: [Examples.M])
              empty_parser)) = Some py_int.
Proof.
  apply (type_is_inferred_from_first_value [] Examples.A [Examples.M]
           "x" (PInt 1)).
  - reflexivity.
  - intros c' [<-|[<-|[]]]; reflexivity.
  - intros c' [].
  - reflexivity.
Defined.

(** ** Processing a class twice *)

Lemma get_In_mem {A} k (v : A) d : In (k, v) d -> Dict.mem k d = true.
Proof.
  intros H. apply mem_In. apply in_map_iff. now exists (k, v).
Qed.

Lemma set_get_same {A} k (v : A) d :
  Dict.get k d = Some v -> Dict.set k v d = d.
Proof.
  induction d as [|[k' v'] d IH]; simpl; [discriminate|].
  destruct (String.eqb_spec k k') as [->|Hne].
  - now intros [= ->].
  - intros H. now rewrite IH.
Qed.

Lemma ok_In_get {A} k (v : A) d :
  Dict.ok d = true -> In (k, v) d -> Dict.get k d = Some v.
Proof.
  induction d as [|[k' v'] d IH]; simpl; [tauto|].
  intros Hok [Heq|Hin].
  - inversion Heq; subst. now rewrite String.eqb_refl.
  - apply andb_true_iff in Hok. destruct Hok as [Hk Hok].
    destruct (String.eqb_spec k k') as [->|Hne]; [|auto].
    apply negb_true_iff in Hk. apply mem_false_get in Hk.
    rewrite (IH Hok Hin) in Hk. discriminate.
Qed.

Lemma item_loop_fixed (f : string -> pyobj -> Parser -> Parser) items p :
  (forall k v, In (k, v) items -> f k v p = p) ->
  item_loop f items p = p.
Proof.
  induction items as [|[k v] items IH]; intros Hf; simpl; [reflexivity|].
  rewrite (Hf k v) by now left. apply IH.
  intros k' v' Hin. apply Hf. now right.
Qed.

Lemma collect_annotation_fixed k t p :
  (is_valid k = true -> Dict.get k (types p) = Some t) ->
  collect_annotation k t p = p.
Proof.
  intros H. unfold collect_annotation.
  destruct (is_valid k); simpl; [|reflexivity].
  unfold set_types. rewrite set_get_same by auto. now destruct p.
Qed.

Lemma collect_value_fixed k v p :
  (is_valid k = true ->
   Dict.get k (values p) = Some v /\ Dict.mem k (types p) = true) ->
  collect_value k v p = p.
Proof.
  intros H. unfold collect_value.
  destruct (is_valid k); simpl; [|reflexivity].
  destruct H as [Hv Ht]; [reflexivity|]. rewrite Ht. simpl.
  unfold set_values. rewrite set_get_same by exact Hv. now destruct p.
Qed.

(** Processing the same class twice in a row changes nothing the second
    time, so the adjacent duplicates that a diamond puts into the collected
    sequence are harmless. *)
Theorem repeated_class_is_harmless c p :
  Dict.ok (class_annotations c) = true ->
  Dict.ok (class_dict c) = true ->
  collect_class c (collect_class c p) = collect_class c p.
Proof.
  intros Ha Hd. set (q := collect_class c p).
  rewrite (collect_class_unfold c q).
  assert (Hann : item_loop collect_annotation (class_annotations c) q = q).
  { apply item_loop_fixed. intros k t Hin.
    apply collect_annotation_fixed. intros Hk.
    apply collect_class_types_declared; [exact Hk|exact Ha|].
    now apply ok_In_get. }
  rewrite Hann. apply item_loop_fixed. intros k v Hin.
  apply collect_value_fixed. intros Hk. split.
  - apply collect_class_values_assigned; [exact Hk|exact Hd|].
    now apply ok_In_get.
  - unfold q. rewrite collect_class_types_mem, Hk. unfold declares.
    apply get_In_mem in Hin. rewrite Hin. now rewrite !orb_true_r.
Qed.

Lemma repeated_class_is_harmless_witness :
  collect_class Examples.Listy (collect_class Examples.Listy empty_parser) =
  collect_class Examples.Listy empty_parser.
Proof.
  apply (repeated_class_is_harmless Examples.Listy empty_parser);
    reflexivity.
Defined.

(** * Further properties of the constructor *)

Section MoreLoops.

Context {A S : Type} (body : A -> S -> result S).

(** The loop raises only what a round raises from a state that satisfies
    an invariant of the loop. *)
Lemma for_each_error_from (P : S -> Prop) (Q : error -> Prop) l :
  (forall a s s', In a l -> P s -> body a s = Ok s' -> P s') ->
  (forall a s e, In a l -> P s -> body a s = Err e -> Q e) ->
  forall s e, P s -> for_each body l s = Err e -> Q e.
Proof.
  induction l as [|a l IH]; intros Hstep Herr s e Hs; simpl; [discriminate|].
  destruct (body a s) as [s1|e1] eqn:E; simpl.
  - apply IH.
    + intros b t t' Hb. apply Hstep. now right.
    + intros b t e' Hb. apply Herr. now right.
    + apply (Hstep a s s1); [now left|exact Hs|exact E].
  - intros [= <-]. apply (Herr a s e1); [now left|exact Hs|exact E].
Qed.

(** A loop all of whose rounds succeed from the invariant succeeds. *)
Lemma for_each_succeeds (P : S -> Prop) l :
  (forall a s, In a l -> P s -> exists s', body a s = Ok s' /\ P s') ->
  forall s, P s -> exists s', for_each body l s = Ok s' /\ P s'.
Proof.
  induction l as [|a l IH]; intros Hstep s Hs; simpl; [now exists s|].
  destruct (Hstep a s) as [s1 [E Hs1]]; [now left|exact Hs|].
  rewrite E. simpl. apply IH; [|exact Hs1].
  intros b t Hb. apply Hstep. now right.
Qed.

End MoreLoops.

(** ** What the tables hold *)

Lemma declared_only_empty : declared_only empty_parser.
Proof. intros k [H|[H|H]]; discriminate. Qed.

Lemma collect_annotation_declared_only k t p :
  declared_only p -> declared_only (collect_annotation k t p).
Proof.
  intros H k0 Hk0. rewrite collect_annotation_types_mem.
  apply orb_true_iff. left. apply H.
  unfold collect_annotation in Hk0. now destruct (is_valid k).
Qed.

Lemma collect_value_declared_only k v p :
  declared_only p -> declared_only (collect_value k v p).
Proof.
  intros H k0 Hk0. rewrite collect_value_types_mem.
  destruct Hk0 as [Hk0|Hk0].
  - rewrite collect_value_values_mem in Hk0.
    apply orb_true_iff in Hk0. apply orb_true_iff.
    destruct Hk0 as [Hk0|Hk0]; [left; apply H; now left|now right].
  - apply orb_true_iff. left. apply H. right.
    unfold collect_value in Hk0. destruct (is_valid k); simpl in Hk0;
      [|exact Hk0].
    now destruct (Dict.mem k (types p)).
Qed.

Lemma collect_calculator_declared_only k f p :
  Dict.mem k (types p) = true ->
  declared_only p -> declared_only (collect_calculator k f p).
Proof.
  intros Hk H k0 Hk0. rewrite collect_calculator_types.
  unfold collect_calculator in Hk0.
  destruct (is_append f); simpl in Hk0.
  - destruct Hk0 as [Hk0|[Hk0|Hk0]]; [apply H; auto|apply H; auto|].
    rewrite mem_set in Hk0. apply orb_true_iff in Hk0.
    destruct Hk0 as [Hk0|Hk0]; [|apply H; auto].
    apply String.eqb_eq in Hk0. now subst.
  - destruct Hk0 as [Hk0|[Hk0|Hk0]]; [apply H; auto| |apply H; auto].
    rewrite mem_set in Hk0. apply orb_true_iff in Hk0.
    destruct Hk0 as [Hk0|Hk0]; [|apply H; auto].
    apply String.eqb_eq in Hk0. now subst.
Qed.

Lemma collect_calculator_options_nonempty k f p :
  options_nonempty p -> options_nonempty (collect_calculator k f p).
Proof.
  intros H k0 opts. unfold collect_calculator.
  destruct (is_append f); simpl; [apply H|].
  destruct (String.eqb_spec k0 k) as [->|Hne].
  - rewrite get_set_same. intros [= <-].
    destruct (get_or k (options p) []) as [|[n g] d]; simpl; [discriminate|].
    destruct (String.eqb (option_name f) n); discriminate.
  - rewrite get_set_other by exact Hne. apply H.
Qed.

Lemma collect_value_options k v p :
  options (collect_value k v p) = options p /\
  list_appends (collect_value k v p) = list_appends p.
Proof.
  unfold collect_value. destruct (is_valid k); simpl; [|now split].
  destruct (Dict.mem k (types p)); now split.
Qed.

Lemma well_formed_empty : well_formed empty_parser.
Proof.
  split; [intros k; discriminate|]. split; [apply declared_only_empty|].
  intros k opts. discriminate.
Qed.

Lemma collect_annotation_well_formed k t p :
  well_formed p -> well_formed (collect_annotation k t p).
Proof.
  intros [Ht [Hd Ho]]. split; [now apply collect_annotation_types_valid|].
  split; [now apply collect_annotation_declared_only|].
  unfold options_nonempty, collect_annotation. now destruct (is_valid k).
Qed.

Lemma collect_value_well_formed k v p :
  well_formed p -> well_formed (collect_value k v p).
Proof.
  intros [Ht [Hd Ho]]. split; [now apply collect_value_types_valid|].
  split; [now apply collect_value_declared_only|].
  unfold options_nonempty. destruct (collect_value_options k v p) as [-> _].
  exact Ho.
Qed.

Lemma collect_classes_well_formed classes :
  forall p, well_formed p -> well_formed (collect_classes classes p).
Proof.
  unfold collect_classes.
  induction classes as [|c classes IH]; intros p Hp; simpl; [exact Hp|].
  apply IH. rewrite collect_class_unfold.
  apply item_loop_invariant; [intros; now apply collect_value_well_formed|].
  apply item_loop_invariant;
    [intros; now apply collect_annotation_well_formed|exact Hp].
Qed.

Lemma collect_calculators_well_formed kc p p' :
  collect_calculators kc p = Ok p' -> well_formed p -> well_formed p'.
Proof.
  destruct kc as [k calcs]. unfold collect_calculators.
  destruct (Dict.mem k (types p)) eqn:Hk; [|discriminate].
  intros [= <-]. revert p Hk.
  induction calcs as [|f calcs IH]; intros p Hk Hp; simpl; [exact Hp|].
  apply IH; [now rewrite collect_calculator_types|].
  destruct Hp as [Ht [Hd Ho]]. split; [|split].
  - unfold types_valid. now rewrite collect_calculator_types.
  - now apply collect_calculator_declared_only.
  - now apply collect_calculator_options_nonempty.
Qed.

Lemma collect_class_calculators_well_formed c p p' :
  collect_class_calculators c p = Ok p' -> well_formed p -> well_formed p'.
Proof.
  unfold collect_class_calculators.
  destruct (class_calculators c) as [table|]; [|now intros [= <-]].
  intros H Hp. revert H.
  apply (for_each_preserves collect_calculators well_formed); [|exact Hp].
  intros kc s s' _ Hs H. now apply (collect_calculators_well_formed kc s).
Qed.

Lemma merge_well_formed configs overrides p :
  merge configs overrides = Ok p -> well_formed p.
Proof.
  intros H. apply merge_inv in H. destruct H as [p1 [p2 [H1 [H2 H3]]]].
  assert (Hp1 : well_formed p1).
  { revert H1.
    apply (for_each_preserves collect_class_calculators well_formed).
    - intros c s s' _ Hs H. now apply (collect_class_calculators_well_formed c s).
    - apply collect_classes_well_formed, well_formed_empty. }
  apply instance_loop_ok in H2. subst p2.
  assert (Hp2 : well_formed
                  (item_loop collect_value (configs_dict configs) p1)).
  { apply item_loop_invariant; [intros; now apply collect_value_well_formed|].
    exact Hp1. }
  destruct overrides as [vals|]; [|now subst p].
  apply override_loop_ok in H3. subst p.
  apply item_loop_invariant; [intros; now apply collect_value_well_formed|].
  exact Hp2.
Qed.

Lemma round_well_formed k p p' :
  calculate_missing_value k p = Ok p' -> well_formed p -> well_formed p'.
Proof.
  intros H [Ht [Hd Ho]]. apply round_cases in H.
  destruct H as [|? ?|opts name Hv Hl Hopts Hf|t Hv Hl Hopts Hty Hc|];
    try (now repeat split).
  - assert (Hk : Dict.mem k (types p) = true).
    { apply Hd. right. left. now apply get_some_mem in Hopts. }
    split; [exact Ht|]. split; [|exact Ho].
    intros k0 [H|H]; [|apply Hd; now right].
    simpl in H. rewrite mem_set in H. apply orb_true_iff in H.
    destruct H as [H|H]; [|apply Hd; now left].
    apply String.eqb_eq in H. now subst.
  - assert (Hk : Dict.mem k (types p) = true)
      by now apply get_some_mem in Hty.
    split; [exact Ht|]. split.
    + intros k0 [H|[H|H]]; simpl in H.
      * rewrite mem_set in H. apply orb_true_iff in H.
        destruct H as [H|H]; [|apply Hd; now left].
        apply String.eqb_eq in H. now subst.
      * rewrite mem_set in H. apply orb_true_iff in H.
        destruct H as [H|H]; [|apply Hd; right; now left].
        apply String.eqb_eq in H. now subst.
      * apply Hd. right. now right.
    + intros k0 opts. simpl.
      destruct (String.eqb_spec k0 k) as [->|Hne].
      * rewrite get_set_same. intros [= <-]. discriminate.
      * rewrite get_set_other by exact Hne. apply Ho.
Qed.

Lemma pass_well_formed p p' :
  calculate_missing_values p = Ok p' -> well_formed p -> well_formed p'.
Proof.
  unfold calculate_missing_values. intros H Hp. revert H.
  apply (for_each_preserves calculate_missing_value well_formed); [|exact Hp].
  intros k s s' _ Hs H. now apply (round_well_formed k s).
Qed.

Lemma Parser_init_well_formed configs overrides p :
  Parser_init configs overrides = Ok p -> well_formed p.
Proof.
  unfold Parser_init.
  destruct (merge configs overrides) as [m|e] eqn:Hm; simpl; [|discriminate].
  intros H. apply (pass_well_formed m); [exact H|].
  now apply (merge_well_formed configs overrides).
Qed.

(** After a successful construction every key of [values], [options] and
    [list_appends] is a key of [types], every key of [types] is a valid
    name, and no option table is empty. *)
Theorem tables_hold_declared_valid_names configs overrides p k :
  Parser_init configs overrides = Ok p ->
  (Dict.mem k (values p) = true \/ Dict.mem k (options p) = true \/
   Dict.mem k (list_appends p) = true ->
   Dict.mem k (types p) = true) /\
  (Dict.mem k (types p) = true -> is_valid k = true) /\
  (forall opts, Dict.get k (options p) = Some opts ->
                exists name, Dict.first_key opts = Some name).
Proof.
  intros H. apply Parser_init_well_formed in H. destruct H as [Ht [Hd Ho]].
  split; [apply Hd|]. split; [apply Ht|].
  intros opts Hopts. specialize (Ho k opts Hopts).
  destruct opts as [|[n f] opts]; [congruence|]. now exists n.
Qed.

Lemma tables_hold_declared_valid_names_witness :
  exists p,
    Parser_init (mkConfigs Examples.Modes []) None = Ok p /\
    Dict.mem "mode" (types p) = true.
Proof.
  eexists. split; [vm_compute; reflexivity|].
  apply (proj1 (tables_hold_declared_valid_names
                  (mkConfigs Examples.Modes []) None
                  _ "mode" ltac:(vm_compute; reflexivity))).
  right. left. reflexivity.
Defined.

(** ** When the missing-value pass raises *)

Lemma round_cannot_compute k k' p :
  calculate_missing_value k p = Err (CannotCompute k') ->
  k' = k /\ unresolvable k p.
Proof.
  unfold calculate_missing_value.
  destruct (has_value k p) eqn:Hv; [discriminate|].
  destruct (Dict.mem k (list_appends p)) eqn:Hl; [discriminate|].
  destruct (Dict.get k (options p)) as [opts|] eqn:Ho.
  { destruct (Dict.first_key opts); discriminate. }
  destruct (Dict.get k (types p)) as [t|] eqn:Ht; [|discriminate].
  destruct (is_plain_class t) eqn:Hc; [discriminate|].
  destruct (Dict.mem k (values p)) eqn:Hm; [discriminate|].
  intros [= <-]. split; [reflexivity|]. exists t.
  split; [|now split]. split; [exact Ht|]. split; [exact Hv|].
  split; [now apply mem_false_get|exact Hl].
Qed.

Lemma round_error_well_formed k p e :
  well_formed p -> Dict.mem k (types p) = true ->
  calculate_missing_value k p = Err e -> e = CannotCompute k.
Proof.
  intros [_ [_ Hne]] Hk. unfold calculate_missing_value.
  destruct (has_value k p); [discriminate|].
  destruct (Dict.mem k (list_appends p)); [discriminate|].
  destruct (Dict.get k (options p)) as [opts|] eqn:Ho.
  { specialize (Hne k opts Ho). destruct opts as [|[n f] opts];
      [congruence|discriminate]. }
  unfold Dict.mem in Hk.
  destruct (Dict.get k (types p)) as [t|]; [|discriminate].
  destruct (is_plain_class t); [discriminate|].
  destruct (Dict.mem k (values p)); [discriminate|]. now intros [= <-].
Qed.

Lemma settled_not_unresolvable k p : settled k p -> ~ unresolvable k p.
Proof.
  intros Hs [t [[Ht [Hv [Ho Hl]]] [Hc Hm]]].
  destruct Hs as [H|[H|[H|[H _]]]]; try congruence.
  apply get_some_mem in H. congruence.
Qed.

Lemma round_keeps_unresolvable k k' p p' :
  k' <> k -> calculate_missing_value k' p = Ok p' ->
  unresolvable k p' -> unresolvable k p.
Proof.
  intros Hne H [t [[Ht [Hv [Ho Hl]]] [Hc Hm]]].
  destruct (round_types _ _ _ H) as [Hty Hla].
  apply (round_frame k) in H; [|now left]. destruct H as [Hvals Hopts].
  exists t. unfold bare, Dict.mem in *.
  rewrite <- (has_value_get _ _ _ Hvals), <- Hla, <- Hopts, <- Hty, <- Hvals.
  auto.
Qed.

Lemma rounds_cannot_compute keys k :
  forall p,
  for_each calculate_missing_value keys p = Err (CannotCompute k) ->
  unresolvable k p.
Proof.
  induction keys as [|a keys IH]; intros p; simpl; [discriminate|].
  destruct (calculate_missing_value a p) as [p1|e] eqn:E; simpl.
  - intros H. specialize (IH p1 H).
    destruct (String.eqb_spec a k) as [->|Hne].
    + apply round_settles in E. now apply settled_not_unresolvable in E.
    + now apply (round_keeps_unresolvable k a p p1).
  - intros [= ->]. apply round_cannot_compute in E. destruct E as [<- E].
    exact E.
Qed.

Lemma pass_raises_unresolvable k p :
  unresolvable k p -> exists e, calculate_missing_values p = Err e.
Proof.
  intros [t [Hb [Hc Hm]]].
  assert (Hround : forall s,
    bare k t s /\ Dict.mem k (values s) = false ->
    calculate_missing_value k s = Err (CannotCompute k)).
  { intros s [Hs Hms]. rewrite (round_bare _ _ _ Hs). now rewrite Hc, Hms. }
  assert (Hin : In k (Dict.keys (types p))).
  { apply mem_In. destruct Hb as [Ht _]. now apply get_some_mem in Ht. }
  destruct (@for_each_raises _ _ calculate_missing_value
              (fun s => bare k t s /\ Dict.mem k (values s) = false)
              (fun _ => True) (Dict.keys (types p)) k Hin)
    with (s := p) as [e [He _]]; auto.
  - intros b s s' _ [Hs Hms] H.
    destruct (String.eqb_spec b k) as [->|Hne].
    + rewrite Hround in H by now split. discriminate.
    + split; [exact (round_keeps_bare _ _ _ _ _ Hne Hs H)|].
      rewrite (round_keeps_values_mem _ _ _ _ Hne H). exact Hms.
  - intros s Hs. exists (CannotCompute k). now apply Hround.
  - now exists e.
Qed.

Lemma pass_error_well_formed p e :
  well_formed p -> calculate_missing_values p = Err e ->
  exists k, e = CannotCompute k.
Proof.
  intros Hp. unfold calculate_missing_values.
  apply (for_each_error_from calculate_missing_value
           (fun s => well_formed s /\ types s = types p)
           (fun e => exists k, e = CannotCompute k)); [| |now split].
  - intros k s s' _ [Hs Ht] H. split; [now apply (round_well_formed k s)|].
    destruct (round_types _ _ _ H) as [-> _]. exact Ht.
  - intros k s e' Hk [Hs Ht] H. exists k.
    apply (round_error_well_formed k s e' Hs); [|exact H].
    rewrite Ht. now apply mem_In.
Qed.

(** The pass raises "Cannot compute" for a name only if the name entered
    the pass with a declared type that is not a plain class and without an
    entry in [values], [options] or [list_appends]. *)
Theorem cannot_compute_means_unresolvable p k :
  calculate_missing_values p = Err (CannotCompute k) ->
  unresolvable k p.
Proof. apply rounds_cannot_compute. Qed.

Lemma cannot_compute_means_unresolvable_witness :
  unresolvable "x" Examples.list_declared.
Proof.
  apply (cannot_compute_means_unresolvable Examples.list_declared "x").
  vm_compute. reflexivity.
Defined.

(** On the state a merge leaves (only valid declared names, no empty
    option table) the pass succeeds exactly when no name is unresolvable. *)
Theorem pass_succeeds_iff_all_resolvable p :
  well_formed p ->
  (exists p', calculate_missing_values p = Ok p') <->
  (forall k, ~ unresolvable k p).
Proof.
  intros Hp. split.
  - intros [p' H] k Hk. destruct (pass_raises_unresolvable k p Hk) as [e He].
    congruence.
  - intros Hall. destruct (calculate_missing_values p) as [p'|e] eqn:E;
      [now exists p'|].
    destruct (pass_error_well_formed p e Hp E) as [k ->].
    apply rounds_cannot_compute in E. now apply Hall in E.
Qed.

Lemma pass_succeeds_iff_all_resolvable_witness :
  exists p', calculate_missing_values Examples.modes_declared = Ok p'.
Proof.
  apply (pass_succeeds_iff_all_resolvable Examples.modes_declared).
  - split; [|split].
    + intros k Hk. unfold Dict.mem in Hk. simpl in Hk.
      destruct (String.eqb k "mode") eqn:E; [|discriminate].
      apply String.eqb_eq in E. rewrite E. reflexivity.
    + intros k [H|[H|H]]; discriminate.
    + intros k opts. discriminate.
  - intros k [t [[Ht _] [Hc _]]]. simpl in Ht.
    destruct (String.eqb k "mode"); [|discriminate].
    injection Ht as <-. discriminate.
Defined.

Lemma merge_error configs overrides e :
  merge configs overrides = Err e -> is_assertion_error e = true.
Proof.
  unfold merge, Dict.items.
  destruct (for_each collect_class_calculators _ _) as [p1|e1] eqn:E1; simpl.
  2:{ intros [= <-]. revert E1.
      apply (for_each_error collect_class_calculators
               (fun e => is_assertion_error e = true)).
      intros c s e' _. apply collect_class_calculators_error. }
  destruct (for_each collect_instance_value _ p1) as [p2|e2] eqn:E2; simpl.
  2:{ intros [= <-]. revert E2.
      apply (for_each_error collect_instance_value
               (fun e => is_assertion_error e = true)).
      intros kv s e' _. apply collect_instance_value_error. }
  destruct overrides as [vals|]; [|discriminate].
  apply (for_each_error collect_override_value
           (fun e => is_assertion_error e = true)).
  intros kv s e' _. apply collect_override_value_error.
Qed.

(** Whatever the inputs, the constructor raises nothing but the assertion
    errors of lines 61, 66, 71 and 131: [next] at line 119 never meets an
    empty option table and [self.types[k]] at line 122 never misses. *)
Theorem constructor_raises_only_assertions configs overrides e :
  Parser_init configs overrides = Err e ->
  is_assertion_error e = true.
Proof.
  unfold Parser_init.
  destruct (merge configs overrides) as [m|e1] eqn:Hm; simpl.
  - intros H. apply merge_well_formed in Hm.
    destruct (pass_error_well_formed m e Hm H) as [k ->]. reflexivity.
  - intros [= <-]. now apply (merge_error configs overrides).
Qed.

Lemma constructor_raises_only_assertions_witness :
  Parser_init (mkConfigs Examples.Base []) (Some [("list", PInt 1)]) =
    Err (UnknownOverride "list") /\
  is_assertion_error (UnknownOverride "list") = true.
Proof.
  split; [vm_compute; reflexivity|].
  apply (constructor_raises_only_assertions
           (mkConfigs Examples.Base []) (Some [("list", PInt 1)])).
  vm_compute. reflexivity.
Defined.

(** A name with appenders and without a value is left as it is: its round
    raises nothing and writes nothing, and the whole pass changes neither
    its value entry nor its option table. *)
Theorem appenders_leave_name_alone p k :
  has_value k p = false ->
  Dict.mem k (list_appends p) = true ->
  calculate_missing_value k p = Ok p /\
  (forall p',
     calculate_missing_values p = Ok p' ->
     Dict.get k (values p') = Dict.get k (values p) /\
     Dict.get k (options p') = Dict.get k (options p) /\
     Dict.mem k (list_appends p') = true).
Proof.
  intros Hv Hl. split.
  { unfold calculate_missing_value. now rewrite Hv, Hl. }
  intros p'. unfold calculate_missing_values.
  apply (for_each_preserves calculate_missing_value
           (fun s => Dict.get k (values s) = Dict.get k (values p) /\
                     Dict.get k (options s) = Dict.get k (options p) /\
                     Dict.mem k (list_appends s) = true)); [|auto].
  intros b s s' _ [Hvs [Hos Hls]] H.
  destruct (String.eqb_spec b k) as [->|Hne].
  - unfold calculate_missing_value in H.
    rewrite (has_value_get k p s Hvs), Hv, Hls in H. injection H as <-. auto.
  - destruct (round_types _ _ _ H) as [_ Hla].
    apply (round_frame k) in H; [|now left]. destruct H as [-> ->].
    rewrite Hla. auto.
Qed.

Lemma appenders_leave_name_alone_witness :
  calculate_missing_value "encoder"
    (register [("encoder", Examples.encoder_appender)]
       Examples.encoder_declared) =
  Ok (register [("encoder", Examples.encoder_appender)]
        Examples.encoder_declared).
Proof.
  apply (appenders_leave_name_alone
           (register [("encoder", Examples.encoder_appender)]
              Examples.encoder_declared) "encoder"); reflexivity.
Defined.

(** ** Options registered under a name already taken *)

Lemma keys_set {A} k (v : A) d :
  Dict.keys (Dict.set k v d) =
  if Dict.mem k d then Dict.keys d else Dict.keys d ++ [k].
Proof.
  unfold Dict.mem. induction d as [|[k' v'] d IH]; simpl; [reflexivity|].
  destruct (String.eqb k k') eqn:E; simpl; [reflexivity|].
  rewrite IH. now destruct (Dict.get k d).
Qed.

(** Registering an option for a name that already has options: under an
    option name already taken the new calculator replaces the old one and
    the order of the options stays; under a new option name it goes last.
    The other options are untouched. *)
Theorem option_registration_order k f p opts :
  is_append f = false ->
  Dict.get k (options p) = Some opts ->
  exists opts',
    Dict.get k (options (collect_calculator k f p)) = Some opts' /\
    Dict.get (option_name f) opts' = Some f /\
    Dict.keys opts' =
      (if Dict.mem (option_name f) opts
       then Dict.keys opts
       else Dict.keys opts ++ [option_name f]) /\
    (forall name, name <> option_name f ->
                  Dict.get name opts' = Dict.get name opts).
Proof.
  intros Hf Ho. exists (Dict.set (option_name f) f opts).
  unfold collect_calculator. rewrite Hf. simpl.
  unfold get_or. rewrite Ho, get_set_same.
  split; [reflexivity|]. split; [apply get_set_same|].
  split; [apply keys_set|].
  intros name Hne. now apply get_set_other.
Qed.

Lemma option_registration_order_witness :
  exists opts',
    Dict.get "mode"
      (options (collect_calculator "mode"
                  (mkConfigFunction PNone ["mode"] "fast" false)
                  (register [("mode", Examples.fast); ("mode", Examples.slow)]
                     Examples.modes_declared))) = Some opts' /\
    Dict.keys opts' = ["fast"; "slow"].
Proof.
  destruct (option_registration_order "mode"
              (mkConfigFunction PNone ["mode"] "fast" false)
              (register [("mode", Examples.fast); ("mode", Examples.slow)]
                 Examples.modes_declared)
              [("fast", Examples.fast); ("slow", Examples.slow)]
              eq_refl eq_refl) as [opts' [H1 [_ [H2 _]]]].
  exists opts'. split; [exact H1|exact H2].
Defined.

(** ** When the merge succeeds *)

Lemma calculators_loop_succeeds table p0 :
  (forall k calcs, In (k, calcs) table -> Dict.mem k (types p0) = true) ->
  forall p, types p = types p0 ->
  exists p', for_each collect_calculators table p = Ok p' /\
             types p' = types p0.
Proof.
  intros Hknown.
  apply (for_each_succeeds collect_calculators (fun s => types s = types p0)).
  intros [k calcs] s Hin Hs.
  exists (fold_left (fun p v => collect_calculator k v p) calcs s).
  assert (E : collect_calculators (k, calcs) s =
              Ok (fold_left (fun p v => collect_calculator k v p) calcs s)).
  { unfold collect_calculators. now rewrite Hs, (Hknown k calcs Hin). }
  split; [exact E|].
  apply collect_calculators_frame in E. destruct E as [-> _]. exact Hs.
Qed.

Lemma class_calculators_loop_succeeds classes p0 :
  (forall c table k calcs,
     In c classes -> class_calculators c = Some table ->
     In (k, calcs) table -> Dict.mem k (types p0) = true) ->
  forall p, types p = types p0 ->
  exists p', for_each collect_class_calculators classes p = Ok p' /\
             types p' = types p0.
Proof.
  intros Hknown.
  apply (for_each_succeeds collect_class_calculators
           (fun s => types s = types p0)).
  intros c s Hc Hs. unfold collect_class_calculators.
  destruct (class_calculators c) as [table|] eqn:Ht; [|now exists s].
  apply calculators_loop_succeeds; [|exact Hs].
  intros k calcs Hin. now apply (Hknown c table k calcs).
Qed.

Lemma instance_loop_succeeds items p0 :
  (forall k v, In (k, v) items -> Dict.mem k (types p0) = true) ->
  forall p, types p = types p0 ->
  exists p', for_each collect_instance_value items p = Ok p' /\
             types p' = types p0.
Proof.
  intros Hknown.
  apply (for_each_succeeds collect_instance_value
           (fun s => types s = types p0)).
  intros [k v] s Hin Hs. exists (collect_value k v s).
  assert (Hk : Dict.mem k (types s) = true)
    by (rewrite Hs; now apply (Hknown k v)).
  split; [unfold collect_instance_value; now rewrite Hk|].
  now rewrite collect_value_types_known.
Qed.

Lemma override_loop_succeeds items p0 :
  (forall k v, In (k, v) items -> Dict.mem k (types p0) = true) ->
  forall p, types p = types p0 ->
  exists p', for_each collect_override_value items p = Ok p' /\
             types p' = types p0.
Proof.
  intros Hknown.
  apply (for_each_succeeds collect_override_value
           (fun s => types s = types p0)).
  intros [k v] s Hin Hs. exists (collect_value k v s).
  assert (Hk : Dict.mem k (types s) = true)
    by (rewrite Hs; now apply (Hknown k v)).
  split; [unfold collect_override_value; now rewrite Hk|].
  now rewrite collect_value_types_known.
Qed.

(** The merge (lines 43-72) goes through exactly when every name with an
    entry in a collected class's calculator table, every key of the
    instance dictionary and every key of the overrides is among the names
    the class pass declared. *)
Theorem merge_succeeds_iff_all_declared configs overrides :
  (exists p, merge configs overrides = Ok p) <->
  ((forall c table k calcs,
      In c (get_base_classes (configs_class configs)) ->
      class_calculators c = Some table -> In (k, calcs) table ->
      Dict.mem k
        (types (collect_classes (get_base_classes (configs_class configs))
                  empty_parser)) = true) /\
   (forall k v,
      In (k, v) (configs_dict configs) ->
      Dict.mem k
        (types (collect_classes (get_base_classes (configs_class configs))
                  empty_parser)) = true) /\
   (forall vals k v,
      overrides = Some vals -> In (k, v) vals ->
      Dict.mem k
        (types (collect_classes (get_base_classes (configs_class configs))
                  empty_parser)) = true)).
Proof.
  set (classes := get_base_classes (configs_class configs)).
  set (p0 := collect_classes classes empty_parser).
  split.
  - intros [p H]. destruct (merge_values configs overrides p H)
      as [_ [Hinst [Hover _]]].
    split; [|split; [exact Hinst|exact Hover]].
    intros c table k calcs Hc Htable Hin.
    destruct (Dict.mem k (types p0)) eqn:E; [reflexivity|].
    destruct (class_calculators_raise classes c table k calcs p0
                Hc Htable Hin E) as [e [He _]].
    apply merge_inv in H. destruct H as [p1 [_ [H1 _]]].
    fold classes p0 in H1. congruence.
  - intros [Hcalc [Hinst Hover]]. unfold merge, Dict.items.
    fold classes. fold p0.
    destruct (class_calculators_loop_succeeds classes p0 Hcalc p0 eq_refl)
      as [p1 [-> H1]]. simpl.
    destruct (instance_loop_succeeds (configs_dict configs) p0 Hinst p1 H1)
      as [p2 [-> H2]]. simpl.
    destruct overrides as [vals|]; [|now exists p2].
    destruct (override_loop_succeeds vals p0 (fun k v => Hover vals k v eq_refl)
                p2 H2) as [p3 [-> _]].
    now exists p3.
Qed.

(** * Properties of the checkpoint saver *)

Section CheckpointFacts.

Import Checkpoint.

Lemma load_each_succeeds savers info names :
  (forall n, In n names ->
             Dict.mem n savers = true /\ Dict.mem n info = true) ->
  exists events,
    load_each savers info names = (events, None) /\
    loaded_names events = names /\ printed events = [].
Proof.
  induction names as [|n names IH]; intros H; simpl.
  - now exists [].
  - destruct (H n (or_introl eq_refl)) as [Hs Hi].
    unfold Dict.mem in Hs, Hi.
    destruct (Dict.get n savers) as [s|]; [|discriminate].
    destruct (Dict.get n info) as [i|]; [|discriminate].
    destruct IH as [events [-> [Hl Hp]]].
    { intros n' Hn'. apply H. now right. }
    exists (LoadModel n i :: events). simpl. now rewrite Hl, Hp.
Qed.

Lemma load_each_fails savers info names n :
  In n names -> Dict.mem n savers = false ->
  (forall n', In n' names -> Dict.mem n' info = true) ->
  exists events n',
    load_each savers info names = (events, Some (UnknownModel n')) /\
    In n' names /\ Dict.mem n' savers = false /\
    printed events = [] /\
    (forall m, In m (loaded_names events) -> Dict.mem m savers = true).
Proof.
  induction names as [|a names IH]; intros Hin Hn Hinfo; [destruct Hin|].
  simpl. destruct (Dict.get a savers) as [s|] eqn:Hs.
  - assert (Ha : Dict.mem a info = true) by (apply Hinfo; now left).
    unfold Dict.mem in Ha.
    destruct (Dict.get a info) as [i|]; [|discriminate].
    destruct IH as [events [n' [-> [Hn' [Hm [Hp Hl]]]]]].
    + destruct Hin as [->|Hin]; [|exact Hin].
      apply mem_false_get in Hn. congruence.
    + exact Hn.
    + intros m Hm. apply Hinfo. now right.
    + exists (LoadModel a i :: events), n'. simpl.
      split; [reflexivity|]. split; [now right|]. split; [exact Hm|].
      split; [exact Hp|]. intros m [<-|Hm']; [|now apply Hl].
      now apply get_some_mem in Hs.
  - exists [], a. split; [reflexivity|]. split; [now left|].
    split; [now apply mem_false_get|]. split; [reflexivity|]. intros m [].
Qed.

Lemma to_load_in_info models info n :
  In n (to_load_of models info) -> Dict.mem n info = true.
Proof. unfold to_load_of. intros H. now apply filter_In in H. Qed.

Lemma printed_app e1 e2 : printed (e1 ++ e2) = printed e1 ++ printed e2.
Proof. apply filter_app. Qed.

Lemma loaded_names_app e1 e2 :
  loaded_names (e1 ++ e2) = loaded_names e1 ++ loaded_names e2.
Proof. apply flat_map_app. Qed.

Lemma notices_are_printed missing to_load not_loaded :
  printed (notices missing to_load not_loaded) =
    notices missing to_load not_loaded /\
  loaded_names (notices missing to_load not_loaded) = [].
Proof.
  unfold notices. destruct missing, not_loaded; now split.
Qed.

(** When every requested model that the checkpoint holds is registered,
    [load] raises nothing: it loads the requested models that the
    checkpoint holds, in the order requested, and then prints the notices
    for the requested models that the checkpoint lacks and for the models of
    the checkpoint that were not requested. *)
Lemma load_registered info models cs :
  model_savers cs <> [] ->
  (forall n, In n (requested models cs) -> Dict.mem n info = true ->
             Dict.mem n (model_savers cs) = true) ->
  exists events,
    load info models cs = (cs, events, None) /\
    loaded_names events = to_load_of (requested models cs) info /\
    printed events =
      notices (missing_of (requested models cs) info)
        (to_load_of (requested models cs) info)
        (not_loaded_of (requested models cs) info).
Proof.
  intros Hne Hreg. unfold load.
  destruct (model_savers cs) as [|s0 savers] eqn:Hs; [congruence|].
  rewrite <- Hs in *.
  destruct (load_each_succeeds (model_savers cs) info
              (to_load_of (requested models cs) info))
    as [events [-> [Hl Hp]]].
  { intros n Hn. unfold to_load_of in Hn. apply filter_In in Hn.
    destruct Hn as [Hn Hi]. split; [now apply Hreg|exact Hi]. }
  eexists. split; [reflexivity|].
  rewrite loaded_names_app, printed_app, Hl, Hp.
  destruct (notices_are_printed (missing_of (requested models cs) info)
              (to_load_of (requested models cs) info)
              (not_loaded_of (requested models cs) info)) as [-> ->].
  now rewrite app_nil_r.
Qed.

End CheckpointFacts.

(** With models registered and none requested, [load] never raises: it
    loads exactly the registered models that the checkpoint holds, in
    the order of registration. *)
Theorem load_all_never_fails info models cs :
  Checkpoint.model_savers cs <> [] ->
  models = None \/ models = Some [] ->
  exists events,
    Checkpoint.load info models cs = (cs, events, None) /\
    Checkpoint.loaded_names events =
      filter (fun name => Dict.mem name info)
        (Dict.keys (Checkpoint.model_savers cs)) /\
    (forall name,
       In name (Checkpoint.loaded_names events) <->
       Dict.mem name (Checkpoint.model_savers cs) = true /\
       Dict.mem name info = true).
Proof.
  intros Hne Hm.
  assert (Hreq : Checkpoint.requested models cs =
                 Dict.keys (Checkpoint.model_savers cs))
    by (destruct Hm as [->| ->]; reflexivity).
  destruct (load_registered info models cs Hne) as [events [Hl [Hn _]]].
  { rewrite Hreq. intros n Hn _. now apply mem_In. }
  exists events. split; [exact Hl|]. rewrite Hn, Hreq.
  split; [reflexivity|]. intros name. unfold Checkpoint.to_load_of.
  rewrite filter_In, <- mem_In. tauto.
Qed.

Lemma load_all_never_fails_witness :
  exists events,
    Checkpoint.load [("decoder", PInt 3)] None Examples.two_models =
      (Examples.two_models, events, None) /\
    Checkpoint.loaded_names events = ["decoder"].
Proof.
  destruct (load_all_never_fails [("decoder", PInt 3)] None
              Examples.two_models) as [events [H1 [H2 _]]].
  - discriminate.
  - now left.
  - exists events. split; [exact H1|exact H2].
Defined.

(** With models requested by name, [load] raises nothing as long as every
    requested model that the checkpoint holds is registered: each requested
    name is then loaded, if the checkpoint holds it, or listed in the notice
    of missing models, and never both; the other notice lists the models of
    the checkpoint that were not requested. *)
Theorem load_requested_reports info names cs :
  Checkpoint.model_savers cs <> [] ->
  names <> [] ->
  (forall n, In n names -> Dict.mem n info = true ->
             Dict.mem n (Checkpoint.model_savers cs) = true) ->
  exists events,
    Checkpoint.load info (Some names) cs = (cs, events, None) /\
    Checkpoint.loaded_names events =
      filter (fun name => Dict.mem name info) names /\
    Checkpoint.printed events =
      Checkpoint.notices (Checkpoint.missing_of names info)
        (Checkpoint.to_load_of names info)
        (Checkpoint.not_loaded_of names info) /\
    (forall n, In n names ->
       (In n (Checkpoint.loaded_names events) /\
        ~ In n (Checkpoint.missing_of names info)) \/
       (In n (Checkpoint.missing_of names info) /\
        ~ In n (Checkpoint.loaded_names events))) /\
    (forall n, In n (Checkpoint.not_loaded_of names info) <->
               Dict.mem n info = true /\ ~ In n names).
Proof.
  intros Hne Hnames Hreg.
  assert (Hreq : Checkpoint.requested (Some names) cs = names)
    by (destruct names; [congruence|reflexivity]).
  destruct (load_registered info (Some names) cs Hne) as [events [Hl [Hn Hp]]].
  { now rewrite Hreq. }
  rewrite Hreq in Hn, Hp. exists events.
  split; [exact Hl|]. split; [exact Hn|]. split; [exact Hp|]. split.
  - intros n Hin. rewrite Hn. unfold Checkpoint.missing_of.
    destruct (Dict.mem n info) eqn:E; [left|right].
    + split; [apply filter_In; now split|].
      intros H. apply filter_In in H. destruct H as [_ H].
      rewrite E in H. discriminate.
    + split; [apply filter_In; split; [exact Hin|now rewrite E]|].
      intros H. apply filter_In in H. destruct H as [_ H]. congruence.
  - intros n. unfold Checkpoint.not_loaded_of.
    rewrite filter_In, <- mem_In, negb_true_iff. split.
    + intros [Hi Hex]. split; [exact Hi|]. intros Hin.
      assert (Ht : existsb (String.eqb n) names = true).
      { apply existsb_exists. exists n. split; [exact Hin|].
        apply String.eqb_refl. }
      congruence.
    + intros [Hi Hnot]. split; [exact Hi|].
      apply not_true_is_false. intros Hex.
      apply existsb_exists in Hex. destruct Hex as [m [Hm He]].
      apply String.eqb_eq in He. now subst.
Qed.

Lemma load_requested_reports_witness :
  exists events,
    Checkpoint.load [("decoder", PInt 3); ("head", PInt 4)]
      (Some ["encoder"; "decoder"]) Examples.two_models =
      (Examples.two_models, events, None) /\
    Checkpoint.printed events =
      [Checkpoint.MissingNotice ["encoder"] ["decoder"];
       Checkpoint.NotLoadedNotice ["head"]].
Proof.
  destruct (load_requested_reports [("decoder", PInt 3); ("head", PInt 4)]
              ["encoder"; "decoder"] Examples.two_models)
    as [events [H1 [_ [H2 _]]]].
  - discriminate.
  - discriminate.
  - intros n [<-|[<-|[]]]; [discriminate|reflexivity].
  - exists events. split; [exact H1|exact H2].
Defined.

(** A requested model that the checkpoint holds but that is not registered
    makes [load] raise [KeyError]: the registered models requested before it
    are loaded by then, and no notice is printed. *)
Theorem load_unregistered_raises info names cs n :
  Checkpoint.model_savers cs <> [] ->
  In n names ->
  Dict.mem n info = true ->
  Dict.mem n (Checkpoint.model_savers cs) = false ->
  exists events n',
    Checkpoint.load info (Some names) cs =
      (cs, events, Some (Checkpoint.UnknownModel n')) /\
    In n' names /\ Dict.mem n' info = true /\
    Dict.mem n' (Checkpoint.model_savers cs) = false /\
    Checkpoint.printed events = [] /\
    (forall m, In m (Checkpoint.loaded_names events) ->
               Dict.mem m (Checkpoint.model_savers cs) = true).
Proof.
  intros Hne Hin Hi Hs.
  assert (Hreq : Checkpoint.requested (Some names) cs = names)
    by (destruct names; [destruct Hin|reflexivity]).
  unfold Checkpoint.load. rewrite Hreq.
  destruct (Checkpoint.model_savers cs) as [|s0 savers] eqn:E; [congruence|].
  rewrite <- E in *.
  destruct (load_each_fails (Checkpoint.model_savers cs) info
              (Checkpoint.to_load_of names info) n)
    as [events [n' [-> [Hn' [Hm [Hp Hl]]]]]].
  - unfold Checkpoint.to_load_of. apply filter_In. now split.
  - exact Hs.
  - intros m. apply to_load_in_info.
  - exists events, n'. split; [reflexivity|].
    unfold Checkpoint.to_load_of in Hn'. apply filter_In in Hn'.
    destruct Hn' as [H1 H2]. auto.
Qed.

Lemma load_unregistered_raises_witness :
  exists events n',
    Checkpoint.load [("head", PInt 4)] (Some ["head"]) Examples.two_models =
      (Examples.two_models, events, Some (Checkpoint.UnknownModel n')).
Proof.
  destruct (load_unregistered_raises [("head", PInt 4)] ["head"]
              Examples.two_models "head") as [events [n' [H _]]].
  - discriminate.
  - now left.
  - reflexivity.
  - reflexivity.
  - now exists events, n'.
Defined.

(** Without a registered saver neither [save] nor [load] does anything
    but print the notice, and only the first such call prints it: the call
    returns the saver with the flag set, on which every later call is
    silent. *)
Theorem no_savers_warns_once cs :
  Checkpoint.model_savers cs = [] ->
  (forall step dirs,
     Checkpoint.save step cs dirs =
     inr (Checkpoint.mkCheckpointSaver [] true, dirs,
          if Checkpoint.no_savers_warned cs then []
          else [Checkpoint.NoSaversNotice])) /\
  (forall dirs step models,
     Checkpoint.load_from dirs step models cs =
     (Checkpoint.mkCheckpointSaver [] true,
      if Checkpoint.no_savers_warned cs then []
      else [Checkpoint.NoSaversNotice], None)) /\
  (forall step dirs,
     Checkpoint.save step (Checkpoint.mkCheckpointSaver [] true) dirs =
     inr (Checkpoint.mkCheckpointSaver [] true, dirs, [])) /\
  (forall dirs step models,
     Checkpoint.load_from dirs step models
       (Checkpoint.mkCheckpointSaver [] true) =
     (Checkpoint.mkCheckpointSaver [] true, [], None)).
Proof.
  intros Hs. destruct cs as [savers warned]. simpl in Hs. subst savers.
  split; [|split; [|split]]; intros; destruct warned; reflexivity.
Qed.

Lemma no_savers_warns_once_witness :
  Checkpoint.save "10" Examples.no_models [] =
  inr (Checkpoint.mkCheckpointSaver [] true, [], [Checkpoint.NoSaversNotice]).
Proof.
  apply (proj1 (no_savers_warns_once Examples.no_models eq_refl) "10" []).
Defined.

(** With savers registered, [save] never overwrites a checkpoint: on an
    existing directory it fails the assertion and changes nothing; on a new
    one it creates the directory with the [info.json] of the registered
    models, leaves the other directories alone, and a second [save] of the
    same step then fails. *)
Theorem save_never_overwrites step cs dirs :
  Checkpoint.model_savers cs <> [] ->
  (Dict.mem step dirs = true ->
   Checkpoint.save step cs dirs = inl (Checkpoint.CheckpointExists step)) /\
  (Dict.mem step dirs = false ->
   exists dirs',
     Checkpoint.save step cs dirs = inr (cs, dirs', []) /\
     Dict.get step dirs' =
       Some (Some (Checkpoint.collect_info (Checkpoint.model_savers cs) step)) /\
     (forall other, other <> step ->
                    Dict.get other dirs' = Dict.get other dirs) /\
     Checkpoint.save step cs dirs' = inl (Checkpoint.CheckpointExists step)).
Proof.
  intros Hne. unfold Checkpoint.save.
  destruct (Checkpoint.model_savers cs) as [|s0 savers] eqn:E; [congruence|].
  split; intros Hm; rewrite Hm; [reflexivity|].
  eexists. split; [reflexivity|]. split; [apply get_set_same|].
  split; [intros other Ho; now apply get_set_other|].
  now rewrite mem_set_same.
Qed.

Lemma save_never_overwrites_witness :
  Checkpoint.save "10" Examples.two_models [("10", None)] =
  inl (Checkpoint.CheckpointExists "10").
Proof.
  apply (save_never_overwrites "10" Examples.two_models [("10", None)]).
  - discriminate.
  - reflexivity.
Defined.

(** ** Saving, then loading *)

Lemma set_new {A} k (v : A) d :
  Dict.mem k d = false -> Dict.set k v d = d ++ [(k, v)].
Proof.
  unfold Dict.mem. induction d as [|[k' v'] d IH]; simpl; [reflexivity|].
  destruct (String.eqb k k'); [discriminate|]. intros H. now rewrite IH.
Qed.

Lemma mem_app {A} k (d1 d2 : odict A) :
  Dict.mem k (d1 ++ d2) = Dict.mem k d1 || Dict.mem k d2.
Proof.
  induction d1 as [|[k' v'] d1 IH]; simpl; [reflexivity|].
  rewrite !mem_cons, IH. now rewrite orb_assoc.
Qed.

Lemma collect_info_from savers step :
  forall acc,
  Dict.ok savers = true ->
  (forall k, Dict.mem k savers = true -> Dict.mem k acc = false) ->
  fold_left
    (fun info ns =>
       Dict.set (fst ns) (Checkpoint.save_model (snd ns) step) info)
    savers acc =
  acc ++ map (fun ns => (fst ns, Checkpoint.save_model (snd ns) step)) savers.
Proof.
  induction savers as [|[k s] savers IH]; intros acc Hok Hacc; simpl.
  - now rewrite app_nil_r.
  - simpl in Hok. apply andb_true_iff in Hok. destruct Hok as [Hk Hok].
    apply negb_true_iff in Hk.
    rewrite set_new by (apply Hacc; rewrite mem_cons, String.eqb_refl;
                        reflexivity).
    rewrite IH; [now rewrite <- app_assoc|exact Hok|].
    intros k' Hk'. rewrite mem_app, mem_cons.
    rewrite Hacc by (rewrite mem_cons, Hk'; apply orb_true_r).
    destruct (String.eqb_spec k' k) as [->|Hne]; [congruence|reflexivity].
Qed.

Lemma collect_info_ok savers step :
  Dict.ok savers = true ->
  Checkpoint.collect_info savers step =
  map (fun ns => (fst ns, Checkpoint.save_model (snd ns) step)) savers.
Proof.
  intros Hok. unfold Checkpoint.collect_info, Dict.items, Dict.empty.
  now rewrite collect_info_from.
Qed.

Lemma get_map_info savers step k :
  Dict.get k
    (map (fun ns => (fst ns, Checkpoint.save_model (snd ns) step)) savers) =
  option_map (fun s => Checkpoint.save_model s step) (Dict.get k savers).
Proof.
  induction savers as [|[k' s] savers IH]; simpl; [reflexivity|].
  now destruct (String.eqb k k').
Qed.

Lemma load_each_events savers info names events :
  Checkpoint.load_each savers info names = (events, None) ->
  forall n, In n names ->
  exists i, Dict.get n info = Some i /\ In (Checkpoint.LoadModel n i) events.
Proof.
  revert events. induction names as [|a names IH]; intros events H n Hin;
    [destruct Hin|].
  simpl in H. destruct (Dict.get a savers) as [s|]; [|discriminate].
  destruct (Dict.get a info) as [i|] eqn:Hi; [|discriminate].
  destruct (Checkpoint.load_each savers info names) as [ev failed] eqn:E.
  injection H as <- ->.
  destruct Hin as [<-|Hin].
  - exists i. split; [exact Hi|now left].
  - destruct (IH ev eq_refl n Hin) as [j [Hj Hin']].
    exists j. split; [exact Hj|now right].
Qed.

Lemma save_with_savers step cs dirs :
  Checkpoint.model_savers cs <> [] ->
  Checkpoint.save step cs dirs =
  if Dict.mem step dirs then inl (Checkpoint.CheckpointExists step)
  else inr (cs,
            Dict.set step
              (Some (Checkpoint.collect_info (Checkpoint.model_savers cs) step))
              dirs,
            []).
Proof.
  intros Hne. unfold Checkpoint.save.
  destruct (Checkpoint.model_savers cs); [congruence|reflexivity].
Qed.

Lemma load_with_savers info models cs :
  Checkpoint.model_savers cs <> [] ->
  Checkpoint.load info models cs =
  match Checkpoint.load_each (Checkpoint.model_savers cs) info
          (Checkpoint.to_load_of (Checkpoint.requested models cs) info) with
  | (events, Some e) => (cs, events, Some e)
  | (events, None) =>
      (cs,
       events ++
       Checkpoint.notices
         (Checkpoint.missing_of (Checkpoint.requested models cs) info)
         (Checkpoint.to_load_of (Checkpoint.requested models cs) info)
         (Checkpoint.not_loaded_of (Checkpoint.requested models cs) info),
       None)
  end.
Proof.
  intros Hne. unfold Checkpoint.load.
  destruct (Checkpoint.model_savers cs); [congruence|reflexivity].
Qed.

Lemma load_from_with_savers dirs step models cs :
  Checkpoint.model_savers cs <> [] ->
  Checkpoint.load_from dirs step models cs =
  match Dict.get step dirs with
  | Some (Some info) => Checkpoint.load info models cs
  | _ => (cs, [], Some (Checkpoint.NoInfoFile step))
  end.
Proof.
  intros Hne. unfold Checkpoint.load_from.
  destruct (Checkpoint.model_savers cs); [congruence|reflexivity].
Qed.

Lemma filter_none {A} (f : A -> bool) l :
  (forall x, In x l -> f x = false) -> filter f l = [].
Proof.
  induction l as [|x l IH]; intros H; simpl; [reflexivity|].
  rewrite (H x) by now left. apply IH. intros y Hy. apply H. now right.
Qed.

(** A checkpoint written by [save] is read back in full by [load] when no
    model is requested by name: every registered model is loaded, in the
    order of registration, with the information its own saver returned, and
    no notice is printed. *)
Theorem save_then_load_restores_all step cs dirs dirs' events0 :
  Checkpoint.model_savers cs <> [] ->
  Dict.ok (Checkpoint.model_savers cs) = true ->
  Checkpoint.save step cs dirs = inr (cs, dirs', events0) ->
  exists events,
    Checkpoint.load_from dirs' step None cs = (cs, events, None) /\
    Checkpoint.loaded_names events =
      Dict.keys (Checkpoint.model_savers cs) /\
    Checkpoint.printed events = [] /\
    (forall name saver,
       Dict.get name (Checkpoint.model_savers cs) = Some saver ->
       In (Checkpoint.LoadModel name (Checkpoint.save_model saver step))
          events).
Proof.
  intros Hne Hok Hsave.
  remember (Checkpoint.model_savers cs) as savers eqn:Hsavers.
  remember (map (fun ns => (fst ns, Checkpoint.save_model (snd ns) step))
              savers) as info eqn:Hinfo_def.
  assert (Hdir : Dict.get step dirs' = Some (Some info)).
  { rewrite save_with_savers in Hsave by congruence.
    destruct (Dict.mem step dirs); [discriminate|].
    injection Hsave as <- _. rewrite get_set_same, <- Hsavers.
    rewrite collect_info_ok by exact Hok. now subst info. }
  assert (Hinfo : forall n, Dict.mem n info = Dict.mem n savers).
  { intros n. unfold Dict.mem. subst info. rewrite get_map_info.
    now destruct (Dict.get n savers). }
  assert (Hall : Checkpoint.to_load_of (Dict.keys savers) info =
                 Dict.keys savers).
  { unfold Checkpoint.to_load_of. apply forallb_filter_id.
    apply forallb_forall. intros n Hn. rewrite Hinfo. now apply mem_In. }
  assert (Hmissing : Checkpoint.missing_of (Dict.keys savers) info = []).
  { unfold Checkpoint.missing_of. apply filter_none. intros m Hm.
    rewrite Hinfo. apply negb_false_iff. now apply mem_In. }
  assert (Hnot : Checkpoint.not_loaded_of (Dict.keys savers) info = []).
  { unfold Checkpoint.not_loaded_of. apply filter_none.
    intros m Hm. apply negb_false_iff. apply existsb_exists.
    exists m. split; [|apply String.eqb_refl].
    apply mem_In. rewrite <- Hinfo. now apply mem_In. }
  rewrite load_from_with_savers by congruence. rewrite Hdir.
  rewrite load_with_savers by congruence.
  unfold Checkpoint.requested. rewrite <- Hsavers, Hall, Hmissing, Hnot.
  destruct (load_each_succeeds savers info (Dict.keys savers))
    as [events [Hev [Hl Hp]]].
  { intros n Hn. apply mem_In in Hn. split; [exact Hn|now rewrite Hinfo]. }
  rewrite Hev. exists (events ++ Checkpoint.notices [] (Dict.keys savers) []).
  unfold Checkpoint.notices. simpl. rewrite !app_nil_r.
  split; [reflexivity|]. split; [exact Hl|]. split; [exact Hp|].
  intros name saver Hget.
  destruct (load_each_events savers info (Dict.keys savers) events Hev name)
    as [i [Hi Hin]].
  { apply mem_In. now apply get_some_mem in Hget. }
  subst info. rewrite get_map_info, Hget in Hi. simpl in Hi.
  injection Hi as <-. exact Hin.
Qed.

Lemma save_then_load_restores_all_witness :
  exists events,
    Checkpoint.load_from
      [("10",
        Some [("encoder", PStr "encoder-10"); ("decoder", PStr "decoder-10")])]
      "10" None Examples.two_models =
      (Examples.two_models, events, None) /\
    Checkpoint.loaded_names events = ["encoder"; "decoder"].
Proof.
  destruct (save_then_load_restores_all "10" Examples.two_models []
              [("10",
                Some [("encoder", PStr "encoder-10");
                      ("decoder", PStr "decoder-10")])] [])
    as [events [H1 [H2 _]]].
  - discriminate.
  - reflexivity.
  - reflexivity.
  - exists events. split; [exact H1|exact H2].
Defined.

(** ** Registering savers *)

Lemma update_other {A} k (other : odict A) :
  Dict.mem k other = false ->
  forall d, Dict.get k (Checkpoint.update d other) = Dict.get k d.
Proof.
  unfold Checkpoint.update.
  induction other as [|[k' v'] other IH]; intros Hm d; simpl; [reflexivity|].
  rewrite mem_cons in Hm. apply orb_false_iff in Hm. destruct Hm as [Hk Hm].
  rewrite IH by exact Hm. apply get_set_other. now apply String.eqb_neq.
Qed.

Lemma update_get {A} k (v : A) (other : odict A) :
  Dict.ok other = true -> Dict.get k other = Some v ->
  forall d, Dict.get k (Checkpoint.update d other) = Some v.
Proof.
  induction other as [|[k' v'] other IH]; intros Hok Hget d;
    simpl in Hok, Hget; [discriminate|].
  apply andb_true_iff in Hok. destruct Hok as [Hk' Hok].
  apply negb_true_iff in Hk'.
  change (Checkpoint.update d ((k', v') :: other))
    with (Checkpoint.update (Dict.set k' v' d) other).
  destruct (String.eqb_spec k k') as [->|Hne].
  - injection Hget as ->. rewrite update_other by exact Hk'.
    apply get_set_same.
  - now apply IH.
Qed.

Lemma update_mem {A} k (other : odict A) :
  forall d,
  Dict.mem k (Checkpoint.update d other) = Dict.mem k d || Dict.mem k other.
Proof.
  induction other as [|[k' v'] other IH]; intros d.
  - simpl. now rewrite orb_false_r.
  - change (Checkpoint.update d ((k', v') :: other))
      with (Checkpoint.update (Dict.set k' v' d) other).
    rewrite IH, mem_set, mem_cons.
    destruct (String.eqb k k'), (Dict.mem k d), (Dict.mem k other);
      reflexivity.
Qed.

(** [add_savers] registers only before the experiment has started.  It
    then registers every given saver under its name, replacing a saver
    registered under that name before, and keeps the savers registered
    under other names. *)
Theorem add_savers_registers experiment models cs :
  Dict.ok models = true ->
  match Checkpoint.add_savers experiment models cs with
  | inr cs' =>
      experiment = Some false /\
      (forall name saver,
         Dict.get name models = Some saver ->
         Dict.get name (Checkpoint.model_savers cs') = Some saver) /\
      (forall name,
         Dict.mem name models = false ->
         Dict.get name (Checkpoint.model_savers cs') =
         Dict.get name (Checkpoint.model_savers cs)) /\
      (forall name,
         Dict.mem name (Checkpoint.model_savers cs') =
         Dict.mem name (Checkpoint.model_savers cs) || Dict.mem name models) /\
      Checkpoint.no_savers_warned cs' = Checkpoint.no_savers_warned cs
  | inl e =>
      (experiment = None /\ e = Checkpoint.NoExperiment) \/
      (experiment = Some true /\ e = Checkpoint.AlreadyStarted)
  end.
Proof.
  intros Hok. destruct experiment as [[|]|]; simpl.
  - right. now split.
  - split; [reflexivity|]. split; [|split; [|split; [|reflexivity]]].
    + intros name saver Hget. now apply update_get.
    + intros name Hm. now apply update_other.
    + intros name. apply update_mem.
  - left. now split.
Qed.

Lemma add_savers_registers_witness :
  Dict.get "encoder"
    (Checkpoint.update (Checkpoint.model_savers Examples.two_models)
       [("encoder", Examples.decoder_saver)]) =
  Some Examples.decoder_saver.
Proof.
  pose proof (add_savers_registers (Some false)
                [("encoder", Examples.decoder_saver)] Examples.two_models
                eq_refl) as H.
  simpl in H. destruct H as [_ [H _]].
  apply (H "encoder" Examples.decoder_saver). reflexivity.
Defined.

(** * The caller's file *)

(** [__get_caller_file] returns the first file of the stack that does not
    lie under the library's own directory, and the empty string when every
    frame lies under it. *)
Theorem caller_file_is_first_outside lab_src frames :
  (exists inside file rest,
     frames = inside ++ file :: rest /\
     Forall (fun f => String.prefix lab_src f = true) inside /\
     String.prefix lab_src file = false /\
     get_caller_file lab_src frames = file) \/
  (Forall (fun f => String.prefix lab_src f = true) frames /\
   get_caller_file lab_src frames = "").
Proof.
  induction frames as [|f frames IH]; simpl.
  - right. split; [constructor|reflexivity].
  - destruct (String.prefix lab_src f) eqn:E.
    + destruct IH as [[inside [file [rest [-> [Hin [Hf Hg]]]]]]|[Hall Hg]].
      * left. exists (f :: inside), file, rest.
        split; [reflexivity|]. split; [now constructor|]. now split.
      * right. split; [now constructor|exact Hg].
    + left. exists [], f, frames.
      split; [reflexivity|]. split; [constructor|]. now split.
Qed.
